(** * Protocol synopsis generator: chunking, extraction and merge

    A shallow embedding of the core of [protocol_synopsis_generator.py]
    (class [ProtocolSynopsisGenerator]): the sentence chunker
    [_chunk_text], the post-processing of a decoded oracle reply in
    [_process_chunk], the in-place merge [_merge_info] and the driver
    [generate_synopsis]; and of the Word renderer [save_to_word].

    Python values are modelled by the values [json.loads] can produce.
    Dictionaries are association lists in insertion order.  A Python
    exception is a value of [exn] returned in the [Err] branch of [result].
    The iteration order of a Python [set] is not specified by the language:
    it is a parameter [set_order] of the development, constrained only to
    be a permutation. *)

From Stdlib Require Import List String Ascii ZArith QArith Bool Lia Permutation
  DecimalString.
Import ListNotations.
Local Open Scope string_scope.
Local Open Scope list_scope.

(** ** Exceptions and the error monad *)

Inductive exn : Type :=
| JSONDecodeError
| TypeError
| AttributeError
| OracleError
| PdfError
| ValidationError.

Inductive result (A : Type) : Type :=
| Ok (a : A)
| Err (e : exn).
Arguments Ok {A} a.
Arguments Err {A} e.

Definition bind {A B : Type} (r : result A) (k : A -> result B) : result B :=
  match r with
  | Ok a => k a
  | Err e => Err e
  end.

Notation "x <- r ;; k" := (bind r (fun x => k))
  (at level 61, r at next level, right associativity).

(** ** Python values

    [JFloat] carries the rational value of a finite float; the non-standard
    literals [NaN] and [Infinity] are outside the model. *)

#[warnings="-register-all"]
Inductive json : Type :=
| JNull
| JBool (b : bool)
| JInt (n : Z)
| JFloat (q : Q)
| JStr (s : string)
| JList (items : list json)
| JDict (entries : list (string * json)).

Definition dict : Type := list (string * json).

(** *** Association lists as insertion-ordered dictionaries *)

Fixpoint dict_get {A : Type} (d : list (string * A)) (key : string) : option A :=
  match d with
  | [] => None
  | (k, v) :: rest => if String.eqb k key then Some v else dict_get rest key
  end.

Definition dict_mem {A : Type} (d : list (string * A)) (key : string) : bool :=
  match dict_get d key with
  | Some _ => true
  | None => false
  end.

(** [d[key] = v]: an existing key keeps its position, a new key goes last. *)
Fixpoint dict_set {A : Type} (d : list (string * A)) (key : string) (v : A)
  : list (string * A) :=
  match d with
  | [] => [(key, v)]
  | (k, w) :: rest =>
      if String.eqb k key then (k, v) :: rest else (k, w) :: dict_set rest key v
  end.

Definition keys {A : Type} (d : list (string * A)) : list string := map fst d.

(** *** Truth value, [isinstance] tests, hashability *)

Definition truthy (v : json) : bool :=
  match v with
  | JNull => false
  | JBool b => b
  | JInt n => negb (Z.eqb n 0)
  | JFloat q => negb (Qeq_bool q 0)
  | JStr s => negb (String.eqb s "")
  | JList items => match items with [] => false | _ :: _ => true end
  | JDict entries => match entries with [] => false | _ :: _ => true end
  end.

Definition is_list (v : json) : bool :=
  match v with JList _ => true | _ => false end.

Definition is_dict (v : json) : bool :=
  match v with JDict _ => true | _ => false end.

Definition is_str (v : json) : bool :=
  match v with JStr _ => true | _ => false end.

(** [isinstance(v, (int, float))]; [bool] is a subclass of [int]. *)
Definition is_number (v : json) : bool :=
  match v with JBool _ | JInt _ | JFloat _ => true | _ => false end.

Definition hashable (v : json) : bool :=
  match v with JList _ | JDict _ => false | _ => true end.

(** *** Python equality [==] *)

Definition num_val (v : json) : option Q :=
  match v with
  | JBool b => Some (if b then 1%Q else 0%Q)
  | JInt n => Some (inject_Z n)
  | JFloat q => Some q
  | _ => None
  end.

Fixpoint py_eq (a b : json) {struct a} : bool :=
  match a, b with
  | JNull, JNull => true
  | JStr s, JStr t => String.eqb s t
  | JList xs, JList ys =>
      (fix all2 (xs ys : list json) {struct xs} : bool :=
         match xs, ys with
         | [], [] => true
         | x :: xs', y :: ys' => py_eq x y && all2 xs' ys'
         | _, _ => false
         end) xs ys
  | JDict d, JDict e =>
      Nat.eqb (List.length d) (List.length e) &&
      (fix sub (d : list (string * json)) {struct d} : bool :=
         match d with
         | [] => true
         | (k, v) :: d' =>
             match dict_get e k with
             | Some w => py_eq v w
             | None => false
             end && sub d'
         end) d
  | (JBool _ | JInt _ | JFloat _), (JBool _ | JInt _ | JFloat _) =>
      match num_val a, num_val b with
      | Some p, Some q => Qeq_bool p q
      | _, _ => false
      end
  | _, _ => false
  end.

(** [item in xs] for a list [xs]. *)
Definition py_in (item : json) (xs : list json) : bool :=
  existsb (fun x => py_eq x item) xs.

(** [base.append(item)] guarded by [item not in base], for each item in
    turn.  Inserting the items of a list into an initially empty [set] is the
    same process: an element equal to one already stored is dropped. *)
Fixpoint append_new (acc items : list json) : list json :=
  match items with
  | [] => acc
  | item :: rest =>
      append_new (if py_in item acc then acc else acc ++ [item]) rest
  end.

Definition py_dedup (xs : list json) : list json := append_new [] xs.

(** ** The schema-complete default record

    The literal of [_process_chunk] (lines 241-282) and of [_merge_info]
    (lines 316-357); the two literals are identical. *)

Definition default_structure : dict :=
  [ ("protocol_title", JStr "");
    ("short_title", JStr "");
    ("protocol_number", JStr "");
    ("version_and_date", JStr "");
    ("study_phase", JStr "");
    ("indication", JStr "");
    ("sponsor", JStr "");
    ("background", JStr "");
    ("mechanism_of_action", JStr "");
    ("justification_for_study_design", JStr "");
    ("primary_objectives", JList []);
    ("secondary_objectives", JList []);
    ("exploratory_objectives", JList []);
    ("primary_endpoints", JList []);
    ("secondary_endpoints", JList []);
    ("exploratory_endpoints", JList []);
    ("design", JStr "");
    ("arms", JList []);
    ("blinding", JStr "");
    ("randomization", JStr "");
    ("study_duration", JStr "");
    ("target_population", JStr "");
    ("sample_size", JInt 0);
    ("inclusion_criteria", JList []);
    ("exclusion_criteria", JList []);
    ("investigational_product", JStr "");
    ("comparator", JStr "");
    ("dosage_and_administration", JList []);
    ("efficacy_assessments", JList []);
    ("safety_assessments", JList []);
    ("pharmacokinetic_assessments", JList []);
    ("immunogenicity_markers", JList []);
    ("sample_size_justification", JStr "");
    ("statistical_analysis_plan", JStr "");
    ("interim_analysis", JStr "");
    ("ethical_considerations", JStr "");
    ("data_monitoring", JStr "");
    ("estimated_study_start_date", JStr "");
    ("estimated_study_completion_date", JStr "");
    ("follow_up_duration", JStr "") ].

Definition array_fields : list string :=
  [ "primary_objectives"; "secondary_objectives"; "exploratory_objectives";
    "primary_endpoints"; "secondary_endpoints"; "exploratory_endpoints";
    "arms"; "inclusion_criteria"; "exclusion_criteria";
    "dosage_and_administration"; "efficacy_assessments"; "safety_assessments";
    "pharmacokinetic_assessments"; "immunogenicity_markers" ].

Definition in_fields (key : string) (fields : list string) : bool :=
  existsb (String.eqb key) fields.

(** The fields of [class ProtocolSynopsis] (lines 32-91) with the kind of
    their annotation. *)
Inductive field_kind : Type :=
| KString
| KNumber
| KList.

Definition schema : list (string * field_kind) :=
  [ ("protocol_title", KString); ("short_title", KString);
    ("protocol_number", KString); ("version_and_date", KString);
    ("study_phase", KString); ("indication", KString); ("sponsor", KString);
    ("background", KString); ("mechanism_of_action", KString);
    ("justification_for_study_design", KString);
    ("primary_objectives", KList); ("secondary_objectives", KList);
    ("exploratory_objectives", KList); ("primary_endpoints", KList);
    ("secondary_endpoints", KList); ("exploratory_endpoints", KList);
    ("design", KString); ("arms", KList); ("blinding", KString);
    ("randomization", KString); ("study_duration", KString);
    ("target_population", KString); ("sample_size", KNumber);
    ("inclusion_criteria", KList); ("exclusion_criteria", KList);
    ("investigational_product", KString); ("comparator", KString);
    ("dosage_and_administration", KList);
    ("efficacy_assessments", KList); ("safety_assessments", KList);
    ("pharmacokinetic_assessments", KList); ("immunogenicity_markers", KList);
    ("sample_size_justification", KString);
    ("statistical_analysis_plan", KString); ("interim_analysis", KString);
    ("ethical_considerations", KString); ("data_monitoring", KString);
    ("estimated_study_start_date", KString);
    ("estimated_study_completion_date", KString);
    ("follow_up_duration", KString) ].

Definition kind_default (k : field_kind) : json :=
  match k with
  | KString => JStr ""
  | KNumber => JInt 0
  | KList => JList []
  end.

(** ** The chunker: [_chunk_text] *)

Definition newline : ascii := ascii_of_nat 10.

(** [text.replace('\n', ' ')] *)
Fixpoint replace_newlines (s : string) : string :=
  match s with
  | EmptyString => EmptyString
  | String c rest =>
      String (if Ascii.eqb c newline then " "%char else c) (replace_newlines rest)
  end.

(** [s.split('. ')]: [cur] holds the characters of the piece being read. *)
Fixpoint split_from (cur s : string) : list string :=
  match s with
  | EmptyString => [cur]
  | String c rest =>
      match rest with
      | String d rest' =>
          if Ascii.eqb c "."%char && Ascii.eqb d " "%char
          then cur :: split_from EmptyString rest'
          else split_from (cur ++ String c EmptyString)%string rest
      | EmptyString => [(cur ++ String c EmptyString)%string]
      end
  end.

Definition split_dot_space (s : string) : list string := split_from EmptyString s.

(** ['. '.join(parts)] *)
Fixpoint join_dot_space (parts : list string) : string :=
  match parts with
  | [] => EmptyString
  | [p] => p
  | p :: rest => (p ++ ". " ++ join_dot_space rest)%string
  end.

(** [len(s)]; the characters of a text are modelled by [ascii]. *)
Definition len (s : string) : Z := Z.of_nat (String.length s).

Record chunk_state : Type := mk_chunk_state
  { chunks : list string;
    current_chunk : list string;
    current_size : Z }.

Definition close_chunk (current : list string) : string :=
  (join_dot_space current ++ ".")%string.

(** One iteration of [for sentence in sentences]. *)
Definition chunk_step (max_chunk_size : Z) (st : chunk_state) (sentence : string)
  : chunk_state :=
  let sentence_size := len sentence in
  if (current_size st + sentence_size >? max_chunk_size)%Z
  then mk_chunk_state (chunks st ++ [close_chunk (current_chunk st)])
                      [sentence] sentence_size
  else mk_chunk_state (chunks st) (current_chunk st ++ [sentence])
                      (current_size st + sentence_size)%Z.

Definition chunk_loop (max_chunk_size : Z) (sentences : list string) : chunk_state :=
  fold_left (chunk_step max_chunk_size) sentences (mk_chunk_state [] [] 0%Z).

Definition _chunk_text (text : string) (max_chunk_size : Z) : list string :=
  let sentences := split_dot_space (replace_newlines text) in
  let st := chunk_loop max_chunk_size sentences in
  match current_chunk st with
  | [] => chunks st
  | _ :: _ => chunks st ++ [close_chunk (current_chunk st)]
  end.

Definition default_max_chunk_size : Z := 100000.

(** ** The extractor: [_process_chunk] after the oracle call *)

(** One iteration of [for key, value in parsed_result.items()]
    (lines 294-301). *)
Definition update_default (ds : dict) (kv : string * json) : dict :=
  let (key, value) := kv in
  if in_fields key array_fields && negb (is_list value)
  then if truthy value
       then dict_set ds key (JList [value])
       else dict_set ds key (JList [])
  else dict_set ds key value.

(** Lines 241-303 on the decoded reply.  A decoded value that is not an
    object has no [items] method. *)
Definition process_parsed (parsed_result : json) : result dict :=
  match parsed_result with
  | JDict entries => Ok (fold_left update_default entries default_structure)
  | _ => Err AttributeError
  end.

(** ** The merger: [_merge_info] *)

Section Merge.

(** The order in which [list(set(xs))] enumerates the distinct elements. *)
Variable set_order : list json -> list json.

(** [list(set(xs))]: building the set hashes every element. *)
Definition list_of_set (xs : list json) : result (list json) :=
  if forallb hashable xs
  then Ok (set_order (py_dedup xs))
  else Err TypeError.

(** The body of [for key, value in new.items()] (lines 360-377). *)
Definition merge_entry (base : dict) (kv : string * json) : result dict :=
  let (key, value) := kv in
  match dict_get base key with
  | None => Ok (dict_set base key value)
  | Some cur =>
      match value with
      | JList items =>
          let base1 :=
            if is_list cur then base else dict_set base key (JList []) in
          let cur_items :=
            match cur with JList l => l | _ => [] end in
          match items with
          | [] => Ok base1
          | first :: _ =>
              if is_dict first
              then Ok (dict_set base1 key (JList (append_new cur_items items)))
              else
                merged <- list_of_set (cur_items ++ items) ;;
                Ok (dict_set base1 key (JList merged))
          end
      | _ =>
          if is_str value && truthy value && negb (truthy cur)
          then Ok (dict_set base key value)
          else if is_number value && truthy value && negb (truthy cur)
          then Ok (dict_set base key value)
          else Ok base
      end
  end.

(** The whole [for] loop, on the dictionary the local name [base] is
    bound to. *)
Fixpoint merge_loop (base : dict) (new : dict) : result dict :=
  match new with
  | [] => Ok base
  | kv :: rest =>
      base' <- merge_entry base kv ;;
      merge_loop base' rest
  end.

(** [_merge_info(base, new)] returns nothing; what the caller can observe
    is the state of the object it passed as [base] once the call is over.
    [None] is Python's [None].  When the argument is falsy, line 316
    rebinds the local name [base] to a fresh dictionary: the loop then
    fills that fresh dictionary, which is dropped on return, and the
    caller's object is left as it was. *)
Definition _merge_info (base : option dict) (new : dict) : result (option dict) :=
  match base with
  | None =>
      _ <- merge_loop default_structure new ;; Ok None
  | Some [] =>
      _ <- merge_loop default_structure new ;; Ok (Some [])
  | Some (e :: d) =>
      merged <- merge_loop (e :: d) new ;; Ok (Some merged)
  end.

(** Folding a sequence of incoming records into one dictionary. *)
Fixpoint merge_all (base : dict) (news : list dict) : result dict :=
  match news with
  | [] => Ok base
  | new :: rest =>
      base' <- merge_loop base new ;;
      merge_all base' rest
  end.

(** ** The driver: [generate_synopsis] *)

(** The external collaborators: the PDF reader, the chat-completion call
    (its reply to the prompt built from the chunk, its number and the
    number of chunks), [json.loads] ([None] for [JSONDecodeError]) and the
    validating constructor of [ProtocolSynopsis] applied to the record.
    The reply is taken to carry a text and [json.loads] to decode it or to
    raise [JSONDecodeError]: a reply without content, and a reply nested
    deeper than the interpreter's recursion limit, are outside the model. *)
Variable read_pdf : string -> result string.
Variable oracle : string -> Z -> Z -> result string.
Variable json_loads : string -> option json.
Variable ProtocolSynopsis : Type.
Variable validate : dict -> result ProtocolSynopsis.

Definition _process_chunk (chunk : string) (chunk_num total_chunks : Z)
  : result dict :=
  content <- oracle chunk chunk_num total_chunks ;;
  match json_loads content with
  | None => Err JSONDecodeError
  | Some parsed_result => process_parsed parsed_result
  end.

(** The loop of lines 390-395.  [log] records the chunk numbers for which
    the oracle has been called so far, in order. *)
Fixpoint process_chunks (todo : list string) (i total : Z)
         (extracted_info : option dict) (log : list Z)
  : list Z * result (option dict) :=
  match todo with
  | [] => (log, Ok extracted_info)
  | chunk :: rest =>
      let log' := log ++ [i] in
      match _process_chunk chunk i total with
      | Err e => (log', Err e)
      | Ok chunk_info =>
          match extracted_info with
          | None => process_chunks rest (i + 1)%Z total (Some chunk_info) log'
          | Some _ =>
              match _merge_info extracted_info chunk_info with
              | Err e => (log', Err e)
              | Ok extracted_info' =>
                  process_chunks rest (i + 1)%Z total extracted_info' log'
              end
          end
      end
  end.

Definition generate_synopsis (pdf_path : string)
  : list Z * result ProtocolSynopsis :=
  match read_pdf pdf_path with
  | Err e => ([], Err e)
  | Ok full_text =>
      let chunks := _chunk_text full_text default_max_chunk_size in
      match process_chunks chunks 1%Z (Z.of_nat (List.length chunks)) None [] with
      | (log, Err e) => (log, Err e)
      | (log, Ok None) => (log, Err TypeError)
      | (log, Ok (Some extracted_info)) => (log, validate extracted_info)
      end
  end.

End Merge.

(** ** Auxiliary notions used to state the properties *)

Fixpoint last_char (s : string) : option ascii :=
  match s with
  | EmptyString => None
  | String c EmptyString => Some c
  | String _ rest => last_char rest
  end.

Definition ends_with_dot (s : string) : bool :=
  match last_char s with
  | Some c => Ascii.eqb c "."%char
  | None => false
  end.

(** [zseq i n] is [i; i+1; ...; i+n-1]. *)
Fixpoint zseq (i : Z) (n : nat) : list Z :=
  match n with
  | O => []
  | S n' => i :: zseq (i + 1)%Z n'
  end.

(** The value [base[key]] holds once the body of the loop has run for
    [(key, value)], given what it held before ([None]: the key was absent).
    It is the body of [merge_entry] read at the one key it touches;
    [merge_entry_value] below relates the two. *)
Definition merged_value (set_order : list json -> list json)
           (cur : option json) (value : json) : result json :=
  match cur with
  | None => Ok value
  | Some c =>
      match value with
      | JList items =>
          let cur_items := match c with JList l => l | _ => [] end in
          match items with
          | [] => Ok (JList cur_items)
          | first :: _ =>
              if is_dict first
              then Ok (JList (append_new cur_items items))
              else
                merged <- list_of_set set_order (cur_items ++ items) ;;
                Ok (JList merged)
          end
      | _ =>
          if is_str value && truthy value && negb (truthy c)
          then Ok value
          else if is_number value && truthy value && negb (truthy c)
          then Ok value
          else Ok c
      end
  end.

(** The values Python can build: the keys of a dictionary are distinct. *)
Fixpoint wf_json (v : json) : Prop :=
  match v with
  | JList items =>
      (fix all (l : list json) : Prop :=
         match l with
         | [] => True
         | x :: l' => wf_json x /\ all l'
         end) items
  | JDict entries =>
      NoDup (keys entries) /\
      (fix all (l : list (string * json)) : Prop :=
         match l with
         | [] => True
         | (_, x) :: l' => wf_json x /\ all l'
         end) entries
  | _ => True
  end.

(** The number of elements of [xs] equal to [v]. *)
Definition py_count (v : json) (xs : list json) : nat :=
  List.length (filter (fun x => py_eq x v) xs).

(** [subseq l1 l2]: [l1] is [l2] with some elements left out, in the same
    order. *)
Inductive subseq : list json -> list json -> Prop :=
| subseq_nil : subseq [] []
| subseq_skip (x : json) (l1 l2 : list json) :
    subseq l1 l2 -> subseq l1 (x :: l2)
| subseq_keep (x : json) (l1 l2 : list json) :
    subseq l1 l2 -> subseq (x :: l1) (x :: l2).

(** "First-seen wins", following the words of the specification: going
    through the incoming entries in order, an entry is appended exactly when
    no equal entry has been seen so far, in the accumulated list or earlier
    in the incoming list, whether that earlier entry was itself appended or
    not.  [seen] holds the accumulated list followed by the incoming
    entries already passed.  The code tests against the list as merged so
    far instead (see [append_new]); [append_new_first_seen] below shows
    that the two agree. *)
Fixpoint first_seen (seen items : list json) : list json :=
  match items with
  | [] => []
  | item :: rest =>
      if py_in item seen
      then first_seen (seen ++ [item]) rest
      else item :: first_seen (seen ++ [item]) rest
  end.

(** The value a fill-once field ends with: the accumulated value when it is
    truthy, else the first truthy incoming value, else the accumulated value
    unchanged. *)
Definition first_truthy (old : json) (incoming : list json) : json :=
  if truthy old then old
  else match find truthy incoming with
       | Some v => v
       | None => old
       end.

(** The test the comparison of two dictionaries makes on each entry of the
    left one. *)
Definition dict_sub (e : list (string * json)) (kv : string * json) : bool :=
  match dict_get e (fst kv) with
  | Some w => py_eq (snd kv) w
  | None => false
  end.

(** The study arm of the specification's example. *)
Definition arm_A : json :=
  JDict [("arm_name", JStr "Arm A");
         ("treatment_description", JStr "desc");
         ("dosing_schedule", JStr "daily")].

(** A second study arm. *)
Definition arm_B : json :=
  JDict [("arm_name", JStr "Arm B");
         ("treatment_description", JStr "placebo");
         ("dosing_schedule", JStr "daily")].

(** The field at [key] of each incoming record of a sequence holds a string
    or a number; [vs] lists these values in order. *)
Definition scalar_updates (key : string) (news : list dict) (vs : list json)
  : Prop :=
  Forall2 (fun (new : dict) (v : json) =>
             NoDup (keys new) /\ In (key, v) new /\
             is_str v || is_number v = true) news vs.

(** An enumeration order used in examples: the order of insertion. *)
Definition insertion_order (l : list json) : list json := l.

(** ** Notions used to state the properties of the chunker *)

(** The number [current_size] holds for a group of sentences: the sum of
    their lengths. *)
Definition sum_len (group : list string) : Z :=
  fold_right (fun s n => (len s + n)%Z) 0%Z group.

(** A group of sentences the loop may hold: one sentence at most, or
    sentences whose lengths add up to at most the limit. *)
Definition group_within (max_chunk_size : Z) (g : list string) : Prop :=
  (List.length g <= 1)%nat \/ (sum_len g <= max_chunk_size)%Z.


(** Consecutive groups of sentences cut greedily: a group ends only where
    the next sentence would take the summed lengths past the limit. *)
Fixpoint greedy_groups (max_chunk_size : Z) (groups : list (list string))
  : Prop :=
  match groups with
  | g :: rest =>
      match rest with
      | (s :: _) :: _ =>
          (sum_len g + len s > max_chunk_size)%Z /\
          greedy_groups max_chunk_size rest
      | [] :: _ => False
      | [] => True
      end
  | [] => True
  end.

(** ** Notions used to state the properties of the extractor and the driver *)

(** [ks'] extends [ks] by the keys of [incoming] that [ks] lacks, each
    once. *)
Definition keys_extended (ks incoming ks' : list string) : Prop :=
  exists extra,
    ks' = ks ++ extra /\
    NoDup extra /\
    forall k, In k extra <-> In k incoming /\ ~ In k ks.

(** Every field of [fields] holds a list in [d]. *)
Definition all_lists (fields : list string) (d : dict) : Prop :=
  forall key, In key fields -> exists items, dict_get d key = Some (JList items).

(** What every record built by [_process_chunk] satisfies, and every record
    accumulated from such records: distinct keys, the fields of the schema
    first, a list in every field of [array_fields]. *)
Definition record_complete (d : dict) : Prop :=
  NoDup (keys d) /\
  (exists extra, keys d = keys schema ++ extra) /\
  all_lists array_fields d.

(** A reply used in examples: a title, an objective given as a string
    instead of a list, and a key the schema does not have. *)
Definition example_reply : dict :=
  [("protocol_title", JStr "Study X");
   ("primary_objectives", JStr "Assess safety");
   ("notes", JStr "n/a")].

(** ** The Word renderer: [save_to_word]

    The validated synopsis is a record with the fields of the pydantic
    models (lines 21-91).  The document is modelled by the calls made on
    the [Document] object, in order; fonts and alignment are left out. *)

Record StudyArm : Type := mk_StudyArm
  { arm_name : string;
    treatment_description : string;
    dosing_schedule : string }.

Record DosageInfo : Type := mk_DosageInfo
  { drug_name : string;
    dose : string;
    frequency : string;
    route_of_administration : string }.

(** [Union[str, int]]. *)
Inductive str_or_int : Type :=
| of_str (s : string)
| of_int (n : Z).

Record ProtocolSynopsis : Type := mk_ProtocolSynopsis
  { protocol_title : string;
    short_title : string;
    protocol_number : string;
    version_and_date : string;
    study_phase : string;
    indication : string;
    sponsor : string;
    background : string;
    mechanism_of_action : string;
    justification_for_study_design : string;
    primary_objectives : list string;
    secondary_objectives : list string;
    exploratory_objectives : option (list string);
    primary_endpoints : list string;
    secondary_endpoints : list string;
    exploratory_endpoints : option (list string);
    design : string;
    arms : list StudyArm;
    blinding : string;
    randomization : string;
    study_duration : str_or_int;
    target_population : string;
    sample_size : Z;
    inclusion_criteria : list string;
    exclusion_criteria : list string;
    investigational_product : string;
    comparator : option string;
    dosage_and_administration : list DosageInfo;
    efficacy_assessments : list string;
    safety_assessments : list string;
    pharmacokinetic_assessments : option (list string);
    immunogenicity_markers : option (list string);
    sample_size_justification : string;
    statistical_analysis_plan : string;
    interim_analysis : option string;
    ethical_considerations : string;
    data_monitoring : string;
    estimated_study_start_date : string;
    estimated_study_completion_date : string;
    follow_up_duration : str_or_int }.

(** What an f-string writes for an [int], and for a [Union[str, int]]. *)
Definition format_int (n : Z) : string :=
  NilZero.string_of_int (Z.to_int n).

Definition format_str_or_int (v : str_or_int) : string :=
  match v with
  | of_str s => s
  | of_int n => format_int n
  end.

(** The truth value of a string. *)
Definition str_truthy (s : string) : bool :=
  match s with
  | EmptyString => false
  | String _ _ => true
  end.

(** A call on the document.  [add_table cols rows] is the table made by
    [doc.add_table(rows=1, cols=cols)] with the rows it holds when the
    document is saved: the header row and the rows added after it. *)
Inductive block : Type :=
| add_heading (text : string) (level : Z)
| add_paragraph (text : string) (style : option string)
| add_table (cols : Z) (rows : list (list string)).

(** One ['List Bullet'] paragraph per item (lines 441-442 and the like). *)
Definition bullets (items : list string) : list block :=
  map (fun item => add_paragraph item (Some "List Bullet")) items.

(** A ['Heading 2'] paragraph followed by the bullets of a list field
    (lines 440-442 and the like). *)
Definition subsection (title : string) (items : list string) : list block :=
  add_paragraph title (Some "Heading 2") :: bullets items.

(** The same under [if synopsis.<field>:] for an optional list (lines
    448-451 and the like): nothing for [None] and for the empty list. *)
Definition optional_subsection (title : string) (items : option (list string))
  : list block :=
  match items with
  | Some (item :: rest) => subsection title (item :: rest)
  | _ => []
  end.

(** A labelled line under [if synopsis.<field>:] for a string and for an
    optional string (lines 503-504, 547-548, 557-560). *)
Definition line_if_truthy (label : string) (value : string) : list block :=
  if str_truthy value then [add_paragraph (label ++ value)%string None] else [].

Definition optional_line (label : string) (value : option string)
  : list block :=
  match value with
  | Some s => line_if_truthy label s
  | None => []
  end.

Definition arm_row (arm : StudyArm) : list string :=
  [arm_name arm; treatment_description arm; dosing_schedule arm].

Definition dosage_row (dosage : DosageInfo) : list string :=
  [drug_name dosage; dose dosage; frequency dosage;
   route_of_administration dosage].

(** [save_to_word(synopsis, output_path)]: the path the document is saved
    to, which is also the value returned, and the calls made on the
    document.  [timestamp] is [datetime.now().strftime("%Y%m%d_%H%M%S")];
    [None] is Python's [None]. *)
Definition save_to_word (timestamp : string) (synopsis : ProtocolSynopsis)
    (output_path : option string) : string * list block :=
  let doc :=
    [add_heading "PROTOCOL SYNOPSIS" 0;
     add_heading "Basic Study Information" 1;
     add_paragraph ("Protocol Title: " ++ protocol_title synopsis)%string None;
     add_paragraph ("Short Title: " ++ short_title synopsis)%string None;
     add_paragraph ("Protocol Number: " ++ protocol_number synopsis)%string None;
     add_paragraph ("Version and Date: " ++ version_and_date synopsis)%string None;
     add_paragraph ("Study Phase: " ++ study_phase synopsis)%string None;
     add_paragraph ("Indication: " ++ indication synopsis)%string None;
     add_paragraph ("Sponsor: " ++ sponsor synopsis)%string None;
     add_heading "Study Rationale" 1;
     add_paragraph "Background:" (Some "Heading 2");
     add_paragraph (background synopsis) None;
     add_paragraph "Mechanism of Action:" (Some "Heading 2");
     add_paragraph (mechanism_of_action synopsis) None;
     add_paragraph "Justification for Study Design:" (Some "Heading 2");
     add_paragraph (justification_for_study_design synopsis) None;
     add_heading "Objectives & Endpoints" 1]
    ++ subsection "Primary Objectives:" (primary_objectives synopsis)
    ++ subsection "Secondary Objectives:" (secondary_objectives synopsis)
    ++ optional_subsection "Exploratory Objectives:"
         (exploratory_objectives synopsis)
    ++ subsection "Primary Endpoints:" (primary_endpoints synopsis)
    ++ subsection "Secondary Endpoints:" (secondary_endpoints synopsis)
    ++ optional_subsection "Exploratory Endpoints:"
         (exploratory_endpoints synopsis)
    ++ [add_heading "Study Design" 1;
        add_paragraph ("Design: " ++ design synopsis)%string None;
        add_paragraph ("Blinding: " ++ blinding synopsis)%string None;
        add_paragraph ("Randomization: " ++ randomization synopsis)%string None;
        add_paragraph
          ("Study Duration: "
             ++ format_str_or_int (study_duration synopsis))%string None;
        add_paragraph "Study Arms:" (Some "Heading 2");
        add_table 3
          (["Arm Name"; "Treatment Description"; "Dosing Schedule"]
             :: map arm_row (arms synopsis));
        add_heading "Population" 1;
        add_paragraph
          ("Target Population: " ++ target_population synopsis)%string None;
        add_paragraph
          ("Sample Size: " ++ format_int (sample_size synopsis))%string None]
    ++ subsection "Inclusion Criteria:" (inclusion_criteria synopsis)
    ++ subsection "Exclusion Criteria:" (exclusion_criteria synopsis)
    ++ [add_heading "Treatments" 1;
        add_paragraph
          ("Investigational Product: "
             ++ investigational_product synopsis)%string None]
    ++ optional_line "Comparator: " (comparator synopsis)
    ++ [add_paragraph "Dosage and Administration:" (Some "Heading 2");
        add_table 4
          (["Drug Name"; "Dose"; "Frequency"; "Route of Administration"]
             :: map dosage_row (dosage_and_administration synopsis));
        add_heading "Assessments" 1]
    ++ subsection "Efficacy Assessments:" (efficacy_assessments synopsis)
    ++ subsection "Safety Assessments:" (safety_assessments synopsis)
    ++ optional_subsection "Pharmacokinetic Assessments:"
         (pharmacokinetic_assessments synopsis)
    ++ optional_subsection "Immunogenicity Markers:"
         (immunogenicity_markers synopsis)
    ++ [add_heading "Statistical Considerations" 1;
        add_paragraph
          ("Sample Size Justification: "
             ++ sample_size_justification synopsis)%string None;
        add_paragraph
          ("Statistical Analysis Plan: "
             ++ statistical_analysis_plan synopsis)%string None]
    ++ optional_line "Interim Analysis: " (interim_analysis synopsis)
    ++ [add_heading "Ethics & Compliance" 1;
        add_paragraph
          ("Ethical Considerations: "
             ++ ethical_considerations synopsis)%string None;
        add_paragraph
          ("Data Monitoring: " ++ data_monitoring synopsis)%string None;
        add_heading "Timeline" 1]
    ++ line_if_truthy "Estimated Study Start Date: "
         (estimated_study_start_date synopsis)
    ++ line_if_truthy "Estimated Study Completion Date: "
         (estimated_study_completion_date synopsis)
    ++ [add_paragraph
          ("Follow-up Duration: "
             ++ format_str_or_int (follow_up_duration synopsis))%string None]
  in
  let output_path :=
    match output_path with
    | None => ("protocol_synopsis_" ++ timestamp ++ ".docx")%string
    | Some path => path
    end in
  (output_path, doc).

(** The texts of the ['List Bullet'] paragraphs of a document, the headings
    with their levels, the titles of the ['Heading 2'] paragraphs and the
    tables, each in document order. *)
Definition bullet_texts (doc : list block) : list string :=
  flat_map (fun b =>
              match b with
              | add_paragraph text (Some style) =>
                  if String.eqb style "List Bullet" then [text] else []
              | _ => []
              end) doc.

Definition headings (doc : list block) : list (string * Z) :=
  flat_map (fun b =>
              match b with
              | add_heading text level => [(text, level)]
              | _ => []
              end) doc.

Definition subsection_titles (doc : list block) : list string :=
  flat_map (fun b =>
              match b with
              | add_paragraph text (Some style) =>
                  if String.eqb style "Heading 2" then [text] else []
              | _ => []
              end) doc.

Definition tables (doc : list block) : list (Z * list (list string)) :=
  flat_map (fun b =>
              match b with
              | add_table cols rows => [(cols, rows)]
              | _ => []
              end) doc.

(** The items of an optional list: none for [None]. *)
Definition opt_items (o : option (list string)) : list string :=
  match o with
  | Some l => l
  | None => []
  end.

(** The title of a subsection that is printed only when it has items. *)
Definition title_if_items (title : string) (items : list string)
  : list string :=
  match items with
  | [] => []
  | _ :: _ => [title]
  end.

(** * Properties *)

Lemma bind_Ok_inv {A B : Type} (r : result A) (k : A -> result B) (b : B) :
  bind r k = Ok b -> exists a, r = Ok a /\ k a = Ok b.
Proof.
  destruct r as [a|e]; simpl; intros H; [eauto | discriminate].
Qed.

(** ** Dictionaries *)

Lemma dict_get_set_same {A : Type} (d : list (string * A)) key v :
  dict_get (dict_set d key v) key = Some v.
Proof.
  induction d as [|[k w] rest IH]; simpl.
  - now rewrite String.eqb_refl.
  - destruct (String.eqb k key) eqn:E; simpl; rewrite E; auto.
Qed.

Lemma dict_get_set_other {A : Type} (d : list (string * A)) key key' v :
  key <> key' -> dict_get (dict_set d key v) key' = dict_get d key'.
Proof.
  intros Hne. induction d as [|[k w] rest IH]; simpl.
  - destruct (String.eqb key key') eqn:E; auto.
    apply String.eqb_eq in E. contradiction.
  - destruct (String.eqb k key) eqn:E; simpl.
    + apply String.eqb_eq in E. subst k.
      destruct (String.eqb key key') eqn:E'; auto.
      apply String.eqb_eq in E'. contradiction.
    + destruct (String.eqb k key'); auto.
Qed.

Lemma dict_get_In {A : Type} (d : list (string * A)) key v :
  dict_get d key = Some v -> In (key, v) d.
Proof.
  induction d as [|[k w] rest IH]; simpl; [discriminate|].
  destruct (String.eqb k key) eqn:E.
  - apply String.eqb_eq in E. intros [= ->]. subst. now left.
  - intros H. right. auto.
Qed.

Lemma dict_get_None {A : Type} (d : list (string * A)) key :
  ~ In key (keys d) -> dict_get d key = None.
Proof.
  induction d as [|[k w] rest IH]; simpl; auto.
  intros H. destruct (String.eqb k key) eqn:E.
  - apply String.eqb_eq in E. subst. exfalso. apply H. now left.
  - apply IH. intros Hin. apply H. now right.
Qed.

Lemma In_dict_get {A : Type} (d : list (string * A)) key v :
  NoDup (keys d) -> In (key, v) d -> dict_get d key = Some v.
Proof.
  induction d as [|[k w] rest IH]; simpl; [contradiction|].
  intros Hnd [Heq | Hin].
  - injection Heq as -> ->. now rewrite String.eqb_refl.
  - inversion Hnd as [|? ? Hk Hrest]; subst.
    destruct (String.eqb k key) eqn:E.
    + apply String.eqb_eq in E. subst. exfalso. apply Hk.
      change (In (fst (key, v)) (map fst rest)). now apply in_map.
    + auto.
Qed.

Lemma In_keys {A : Type} (d : list (string * A)) key v :
  In (key, v) d -> In key (keys d).
Proof.
  intros H. change (In (fst (key, v)) (map fst d)). now apply in_map.
Qed.

(** ** The chunker *)

Lemma split_from_nonempty (s cur : string) : split_from cur s <> [].
Proof.
  revert cur. induction s as [|c rest IH]; intros cur; simpl.
  - discriminate.
  - destruct rest as [|d rest'].
    + discriminate.
    + destruct (Ascii.eqb c "." && Ascii.eqb d " ").
      * discriminate.
      * apply IH.
Qed.

Lemma last_char_append_dot (s : string) :
  last_char (s ++ ".")%string = Some "."%char.
Proof.
  induction s as [|c rest IH]; simpl; auto.
  destruct (rest ++ ".")%string eqn:E; auto.
  destruct rest; discriminate.
Qed.

Lemma close_chunk_ends_with_dot (current : list string) :
  ends_with_dot (close_chunk current) = true.
Proof.
  unfold ends_with_dot, close_chunk. now rewrite last_char_append_dot.
Qed.

Definition all_dotted (cs : list string) : Prop :=
  Forall (fun c => ends_with_dot c = true) cs.

Lemma chunk_step_dotted max st sentence :
  all_dotted (chunks st) -> all_dotted (chunks (chunk_step max st sentence)).
Proof.
  intros H. unfold chunk_step.
  destruct (current_size st + len sentence >? max)%Z; simpl; auto.
  apply Forall_app. split; auto.
  constructor; [apply close_chunk_ends_with_dot | constructor].
Qed.

Lemma chunk_step_current max st sentence :
  current_chunk (chunk_step max st sentence) <> [].
Proof.
  unfold chunk_step.
  destruct (current_size st + len sentence >? max)%Z; simpl.
  - discriminate.
  - destruct (current_chunk st); discriminate.
Qed.

Lemma chunk_fold_dotted max sentences st :
  all_dotted (chunks st) ->
  all_dotted (chunks (fold_left (chunk_step max) sentences st)).
Proof.
  revert st. induction sentences as [|s rest IH]; intros st H; simpl; auto.
  apply IH. now apply chunk_step_dotted.
Qed.

Lemma chunk_fold_current max sentences st :
  sentences <> [] \/ current_chunk st <> [] ->
  current_chunk (fold_left (chunk_step max) sentences st) <> [].
Proof.
  revert st. induction sentences as [|s rest IH]; intros st H; simpl.
  - destruct H as [H|H]; [congruence | exact H].
  - apply IH. right. apply chunk_step_current.
Qed.

(** C10. For every text and every positive [max_chunk_size], [_chunk_text]
    returns at least one chunk, every chunk it returns ends with the
    character ['.'], and for the empty text it returns exactly the one
    chunk ["."]. *)
Theorem chunk_text_nonempty_dotted (text : string) (max_chunk_size : Z) :
  (0 < max_chunk_size)%Z ->
  _chunk_text text max_chunk_size <> [] /\
  all_dotted (_chunk_text text max_chunk_size) /\
  _chunk_text "" max_chunk_size = ["."].
Proof.
  intros Hpos. unfold _chunk_text.
  set (sentences := split_dot_space (replace_newlines text)).
  assert (Hcur : current_chunk (chunk_loop max_chunk_size sentences) <> []).
  { apply chunk_fold_current. left. apply split_from_nonempty. }
  assert (Hdot : all_dotted (chunks (chunk_loop max_chunk_size sentences))).
  { apply chunk_fold_dotted. constructor. }
  repeat split.
  - destruct (current_chunk (chunk_loop max_chunk_size sentences)); [congruence|].
    destruct (chunks (chunk_loop max_chunk_size sentences)); discriminate.
  - destruct (current_chunk (chunk_loop max_chunk_size sentences)) eqn:E; auto.
    apply Forall_app. split; auto.
    constructor; [apply close_chunk_ends_with_dot | constructor].
  - cbn. unfold chunk_step. cbn.
    destruct (0 >? max_chunk_size)%Z eqn:E; [lia | reflexivity].
Qed.

Lemma chunk_text_nonempty_dotted_witness :
  (0 < 4)%Z /\
  _chunk_text "ab. cd" 4 <> [] /\
  all_dotted (_chunk_text "ab. cd" 4) /\
  _chunk_text "" 4 = ["."].
Proof.
  split; [lia | apply (chunk_text_nonempty_dotted "ab. cd" 4); lia].
Defined.

(** C3. The chunk size is not bounded by [max_chunk_size]: the loop adds up
    the lengths of the sentences only, and the chunk it closes also holds the
    separators and the final period.  With limit 4 the text ["ab. cd"] has
    two sentences of two characters, neither of them over the limit, and
    comes back as one chunk of seven characters. *)
Theorem chunk_text_exceeds_limit :
  split_dot_space (replace_newlines "ab. cd") = ["ab"; "cd"] /\
  _chunk_text "ab. cd" 4 = ["ab. cd."] /\
  len "ab. cd." = 7%Z /\
  (len "ab" <= 4)%Z /\ (len "cd" <= 4)%Z.
Proof.
  repeat split; try reflexivity; discriminate.
Qed.

(** ** The extractor *)

Lemma in_fields_In (key : string) (fields : list string) :
  In key fields -> in_fields key fields = true.
Proof.
  intros H. unfold in_fields. apply existsb_exists.
  exists key. split; [exact H | apply String.eqb_refl].
Qed.

Lemma update_default_other (ds : dict) (kv : string * json) (key : string) :
  fst kv <> key -> dict_get (update_default ds kv) key = dict_get ds key.
Proof.
  destruct kv as [k v]. cbn [fst]. intros Hne. unfold update_default.
  destruct (in_fields k array_fields && negb (is_list v));
    [destruct (truthy v)|]; now apply dict_get_set_other.
Qed.

Lemma fold_update_default_other (entries : dict) (ds : dict) (key : string) :
  ~ In key (keys entries) ->
  dict_get (fold_left update_default entries ds) key = dict_get ds key.
Proof.
  revert ds. induction entries as [|kv rest IH]; intros ds Hk; simpl; auto.
  rewrite IH.
  - apply update_default_other. intros Heq. apply Hk. now left.
  - intros Hin. apply Hk. now right.
Qed.

Lemma fold_update_default_coerces (entries : dict) (ds : dict) key value :
  NoDup (keys entries) ->
  In (key, value) entries ->
  In key array_fields ->
  is_list value = false ->
  dict_get (fold_left update_default entries ds) key
  = Some (JList (if truthy value then [value] else [])).
Proof.
  intros Hnd Hin Hfield Hlist. revert ds Hnd Hin.
  induction entries as [|[k v] rest IH]; intros ds Hnd Hin; [contradiction|].
  inversion Hnd as [|? ? Hk Hrest]; subst. simpl in Hin.
  destruct Hin as [Heq | Hin].
  - injection Heq as -> ->. cbn [fold_left].
    rewrite fold_update_default_other by exact Hk.
    unfold update_default.
    rewrite (in_fields_In _ _ Hfield), Hlist. simpl.
    destruct (truthy value); apply dict_get_set_same.
  - cbn [fold_left]. now apply IH.
Qed.

(** C5. When the reply decodes to an object in which a field listed in
    [array_fields] holds a value that is not a list, [_process_chunk] returns
    normally and the field of the returned record is the one-element list
    holding that value when the value is truthy, and the empty list when it
    is falsy (empty or null); it is never the empty string. *)
Theorem process_chunk_coerces_array_fields
    (oracle : string -> Z -> Z -> result string)
    (json_loads : string -> option json)
    (chunk : string) (chunk_num total_chunks : Z)
    (content : string) (entries : dict) (key : string) (value : json) :
  oracle chunk chunk_num total_chunks = Ok content ->
  json_loads content = Some (JDict entries) ->
  NoDup (keys entries) ->
  In (key, value) entries ->
  In key array_fields ->
  is_list value = false ->
  exists record,
    _process_chunk oracle json_loads chunk chunk_num total_chunks = Ok record /\
    dict_get record key = Some (JList (if truthy value then [value] else [])) /\
    dict_get record key <> Some (JStr "").
Proof.
  intros Horacle Hloads Hnd Hin Hfield Hlist.
  exists (fold_left update_default entries default_structure).
  assert (Hget := fold_update_default_coerces entries default_structure
                    key value Hnd Hin Hfield Hlist).
  repeat split.
  - unfold _process_chunk. rewrite Horacle. simpl. now rewrite Hloads.
  - exact Hget.
  - rewrite Hget. discriminate.
Qed.

Lemma process_chunk_coerces_array_fields_witness :
  exists record,
    _process_chunk (fun _ _ _ => Ok "reply")
      (fun _ => Some (JDict [("arms", JStr "Arm A only");
                             ("inclusion_criteria", JNull)]))
      "chunk" 1 1 = Ok record /\
    dict_get record "arms" = Some (JList [JStr "Arm A only"]) /\
    dict_get record "arms" <> Some (JStr "").
Proof.
  apply (process_chunk_coerces_array_fields
           (fun _ _ _ => Ok "reply")
           (fun _ => Some (JDict [("arms", JStr "Arm A only");
                                  ("inclusion_criteria", JNull)]))
           "chunk" 1%Z 1%Z "reply"
           [("arms", JStr "Arm A only"); ("inclusion_criteria", JNull)]
           "arms" (JStr "Arm A only")).
  - reflexivity.
  - reflexivity.
  - repeat constructor; simpl; intuition discriminate.
  - simpl. now left.
  - simpl. tauto.
  - reflexivity.
Defined.

(** C9. When the reply decodes to the empty object, [_process_chunk] returns
    a record whose keys are exactly the fields of the schema, each bound to
    the default of its kind: [""] for a string, [0] for [sample_size], [[]]
    for a list. *)
Theorem process_chunk_empty_object
    (oracle : string -> Z -> Z -> result string)
    (json_loads : string -> option json)
    (chunk : string) (chunk_num total_chunks : Z) (content : string) :
  oracle chunk chunk_num total_chunks = Ok content ->
  json_loads content = Some (JDict []) ->
  exists record,
    _process_chunk oracle json_loads chunk chunk_num total_chunks = Ok record /\
    keys record = keys schema /\
    (forall name kind,
        In (name, kind) schema -> dict_get record name = Some (kind_default kind)).
Proof.
  intros Horacle Hloads. exists default_structure. repeat split.
  - unfold _process_chunk. rewrite Horacle. simpl. now rewrite Hloads.
  - intros name kind Hin. simpl in Hin.
    repeat (destruct Hin as [Hin | Hin];
            [injection Hin as <- <-; reflexivity|]).
    contradiction.
Qed.

Lemma process_chunk_empty_object_witness :
  exists record,
    _process_chunk (fun _ _ _ => Ok "{}") (fun _ => Some (JDict []))
      "chunk" 1 1 = Ok record /\
    keys record = keys schema /\
    (forall name kind,
        In (name, kind) schema -> dict_get record name = Some (kind_default kind)).
Proof.
  apply (process_chunk_empty_object (fun _ _ _ => Ok "{}")
           (fun _ => Some (JDict [])) "chunk" 1%Z 1%Z "{}"); reflexivity.
Defined.

(** ** The driver *)

Section Driver.

Variable set_order : list json -> list json.
Variable read_pdf : string -> result string.
Variable oracle : string -> Z -> Z -> result string.
Variable json_loads : string -> option json.
Variable ProtocolSynopsis : Type.
Variable validate : dict -> result ProtocolSynopsis.

Lemma process_chunk_decode_error chunk chunk_num total_chunks content :
  oracle chunk chunk_num total_chunks = Ok content ->
  json_loads content = None ->
  _process_chunk oracle json_loads chunk chunk_num total_chunks
  = Err JSONDecodeError.
Proof.
  intros Horacle Hloads. unfold _process_chunk.
  rewrite Horacle. simpl. now rewrite Hloads.
Qed.

(** Once some chunk makes [_process_chunk] raise, the loop ends with an
    exception, and the oracle has been called once for each chunk up to the
    one where the loop stopped, which is that chunk or an earlier one. *)
Lemma process_chunks_abort (prefix : list string) :
  forall (i total : Z) (extracted_info : option dict) (log : list Z)
         (chunk : string) (rest : list string) (e0 : exn),
    _process_chunk oracle json_loads chunk
      (i + Z.of_nat (List.length prefix)) total = Err e0 ->
    exists (j : nat) (e : exn),
      (j <= List.length prefix)%nat /\
      process_chunks set_order oracle json_loads
        (prefix ++ chunk :: rest) i total extracted_info log
      = (log ++ zseq i (S j), Err e) /\
      (j = List.length prefix -> e = e0).
Proof.
  induction prefix as [|c p IH]; intros i total ex log chunk rest e0 Hfail.
  - simpl in Hfail. rewrite Z.add_0_r in Hfail.
    exists 0%nat, e0. simpl. rewrite Hfail. auto.
  - assert (Hfail' : _process_chunk oracle json_loads chunk
                       ((i + 1) + Z.of_nat (List.length p)) total = Err e0).
    { rewrite <- Hfail. f_equal. simpl List.length. lia. }
    assert (Hstop : forall e : exn,
               exists (j : nat) (e' : exn),
                 (j <= List.length (c :: p))%nat /\
                 (log ++ [i], @Err (option dict) e)
                 = (log ++ zseq i (S j), Err e') /\
                 (j = List.length (c :: p) -> e' = e0)).
    { intros e. exists 0%nat, e. simpl. repeat split; [lia | discriminate]. }
    assert (Hgo : forall ex',
               exists (j : nat) (e : exn),
                 (j <= List.length (c :: p))%nat /\
                 process_chunks set_order oracle json_loads
                   (p ++ chunk :: rest) (i + 1) total ex' (log ++ [i])
                 = (log ++ zseq i (S j), Err e) /\
                 (j = List.length (c :: p) -> e = e0)).
    { intros ex'.
      destruct (IH (i + 1)%Z total ex' (log ++ [i]) chunk rest e0 Hfail')
        as (j & e & Hj & Hrun & He).
      exists (S j), e. simpl List.length. repeat split.
      - lia.
      - rewrite Hrun. rewrite <- app_assoc. reflexivity.
      - intros Heq. apply He. lia. }
    simpl app. cbn [process_chunks].
    destruct (_process_chunk oracle json_loads c i total) as [info|e].
    + destruct ex as [acc|].
      * destruct (_merge_info set_order (Some acc) info) as [ex'|e].
        -- apply Hgo.
        -- apply Hstop.
      * apply Hgo.
    + apply Hstop.
Qed.

(** C4. If the reply for some chunk does not decode as JSON,
    [_process_chunk] raises [JSONDecodeError] on that chunk and
    [generate_synopsis] ends with an exception, never with a record.  The
    oracle has then been called exactly once for each chunk up to the one
    where the run stopped and for no later chunk: nothing is retried,
    nothing is skipped.  When the run reaches the undecodable chunk the
    exception is the decode error. *)
Theorem generate_synopsis_aborts_on_decode_error
    (pdf_path full_text : string) (prefix : list string) (chunk : string)
    (rest : list string) (content : string) :
  read_pdf pdf_path = Ok full_text ->
  _chunk_text full_text default_max_chunk_size = prefix ++ chunk :: rest ->
  oracle chunk (1 + Z.of_nat (List.length prefix))
    (Z.of_nat (List.length (prefix ++ chunk :: rest))) = Ok content ->
  json_loads content = None ->
  _process_chunk oracle json_loads chunk (1 + Z.of_nat (List.length prefix))
    (Z.of_nat (List.length (prefix ++ chunk :: rest))) = Err JSONDecodeError /\
  exists (j : nat) (e : exn),
    (j <= List.length prefix)%nat /\
    generate_synopsis set_order read_pdf oracle json_loads
      ProtocolSynopsis validate pdf_path
    = (zseq 1 (S j), Err e) /\
    (j = List.length prefix -> e = JSONDecodeError).
Proof.
  intros Hread Hchunks Horacle Hloads.
  assert (Hfail := process_chunk_decode_error _ _ _ _ Horacle Hloads).
  split; [exact Hfail|].
  destruct (process_chunks_abort prefix 1%Z
              (Z.of_nat (List.length (prefix ++ chunk :: rest)))
              None [] chunk rest JSONDecodeError Hfail)
    as (j & e & Hj & Hrun & He).
  exists j, e. repeat split; auto.
  unfold generate_synopsis. rewrite Hread, Hchunks, Hrun. reflexivity.
Qed.

End Driver.

Lemma generate_synopsis_aborts_on_decode_error_witness :
  _process_chunk (fun _ _ _ => Ok "not json") (fun _ => None) "ab. cd." 1 1
  = Err JSONDecodeError /\
  exists (j : nat) (e : exn),
    (j <= 0)%nat /\
    generate_synopsis insertion_order (fun _ => Ok "ab. cd")
      (fun _ _ _ => Ok "not json") (fun _ => None) unit (fun _ => Ok tt)
      "protocol.pdf"
    = (zseq 1 (S j), Err e) /\
    (j = 0%nat -> e = JSONDecodeError).
Proof.
  apply (generate_synopsis_aborts_on_decode_error
           insertion_order (fun _ => Ok "ab. cd")
           (fun _ _ _ => Ok "not json") (fun _ => None) unit (fun _ => Ok tt)
           "protocol.pdf" "ab. cd" [] "ab. cd." [] "not json");
    reflexivity.
Defined.

(** ** The merger on an uninitialised accumulated record *)

(** C6. Called with an empty accumulated record, [_merge_info] leaves the
    caller's record empty: the default record is built and filled, but under
    the local name only.  Seeding the caller's record with the default
    record and merging into it gives the default record with the incoming
    title instead. *)
Theorem merge_info_empty_base_unchanged (set_order : list json -> list json) :
  let new := [("protocol_title", JStr "T")] in
  _merge_info set_order (Some []) new = Ok (Some []) /\
  _merge_info set_order None new = Ok None /\
  _merge_info set_order (Some default_structure) new
  = Ok (Some (dict_set default_structure "protocol_title" (JStr "T"))) /\
  Some (dict_set default_structure "protocol_title" (JStr "T"))
  <> Some (@nil (string * json)).
Proof.
  repeat split; discriminate.
Qed.

(** ** Python equality on well-formed values *)

Lemma json_induction (P : json -> Prop) :
  P JNull ->
  (forall b, P (JBool b)) ->
  (forall n, P (JInt n)) ->
  (forall q, P (JFloat q)) ->
  (forall s, P (JStr s)) ->
  (forall items, Forall P items -> P (JList items)) ->
  (forall entries, Forall (fun kv => P (snd kv)) entries -> P (JDict entries)) ->
  forall v, P v.
Proof.
  intros HNull HBool HInt HFloat HStr HList HDict.
  refine (fix IH (v : json) : P v :=
            match v with
            | JNull => HNull
            | JBool b => HBool b
            | JInt n => HInt n
            | JFloat q => HFloat q
            | JStr s => HStr s
            | JList items =>
                HList items
                  ((fix all (l : list json) : Forall P l :=
                      match l with
                      | [] => Forall_nil P
                      | x :: l' => Forall_cons x (IH x) (all l')
                      end) items)
            | JDict entries =>
                HDict entries
                  ((fix all (l : list (string * json))
                    : Forall (fun kv => P (snd kv)) l :=
                      match l with
                      | [] => Forall_nil _
                      | kv :: l' =>
                          Forall_cons kv
                            match kv return P (snd kv) with
                            | (_, x) => IH x
                            end (all l')
                      end) entries)
            end).
Qed.

Lemma wf_json_list (items : list json) :
  wf_json (JList items) <-> Forall wf_json items.
Proof.
  induction items as [|x l IH].
  - split; intros _; [constructor | exact I].
  - split.
    + intros [Hx Hl]. constructor; [exact Hx | now apply IH].
    + intros H. inversion H; subst. split; [assumption | now apply IH].
Qed.

Lemma wf_json_dict (entries : list (string * json)) :
  wf_json (JDict entries) <->
  NoDup (keys entries) /\ Forall (fun kv => wf_json (snd kv)) entries.
Proof.
  cbn [wf_json].
  assert (H : forall l : list (string * json),
             (fix all (l : list (string * json)) : Prop :=
                match l with
                | [] => True
                | (_, x) :: l' => wf_json x /\ all l'
                end) l <-> Forall (fun kv => wf_json (snd kv)) l).
  { induction l as [|[k x] l IH].
    - split; intros _; [constructor | exact I].
    - split.
      + intros [Hx Hl]. constructor; [exact Hx | now apply IH].
      + intros H. inversion H; subst. split; [assumption | now apply IH]. }
  now rewrite H.
Qed.

Lemma hashable_wf (v : json) : hashable v = true -> wf_json v.
Proof.
  destruct v; simpl; intros H; try exact I; discriminate.
Qed.

Lemma py_eq_dict (d e : list (string * json)) :
  py_eq (JDict d) (JDict e)
  = Nat.eqb (List.length d) (List.length e) && forallb (dict_sub e) d.
Proof.
  cbn [py_eq]. f_equal.
  induction d as [|[k v] d IH]; [reflexivity|].
  cbn [forallb]. rewrite <- IH. reflexivity.
Qed.

Lemma py_eq_list_cons (x y : json) (xs ys : list json) :
  py_eq (JList (x :: xs)) (JList (y :: ys))
  = py_eq x y && py_eq (JList xs) (JList ys).
Proof. reflexivity. Qed.

Lemma py_eq_refl (v : json) : wf_json v -> py_eq v v = true.
Proof.
  induction v as [ |b|n|q|s|items IH|entries IH] using json_induction;
    intros Hwf.
  - reflexivity.
  - simpl. apply Qeq_bool_refl.
  - simpl. apply Qeq_bool_refl.
  - simpl. apply Qeq_bool_refl.
  - simpl. apply String.eqb_refl.
  - apply wf_json_list in Hwf.
    induction items as [|x l IHl]; [reflexivity|].
    inversion IH; subst. inversion Hwf; subst.
    rewrite py_eq_list_cons. apply andb_true_intro. split; auto.
  - apply wf_json_dict in Hwf. destruct Hwf as [Hnd Hall].
    rewrite py_eq_dict, Nat.eqb_refl. simpl.
    apply forallb_forall. intros [k x] Hin. unfold dict_sub. simpl.
    rewrite (In_dict_get _ _ _ Hnd Hin).
    rewrite Forall_forall in IH, Hall.
    apply (IH _ Hin). apply (Hall _ Hin).
Qed.

Lemma py_eq_dict_inv (d e : list (string * json)) :
  py_eq (JDict d) (JDict e) = true ->
  List.length d = List.length e /\
  forall k v, In (k, v) d ->
              exists w, dict_get e k = Some w /\ py_eq v w = true.
Proof.
  rewrite py_eq_dict. intros H. apply andb_prop in H. destruct H as [Hlen Hall].
  split; [now apply Nat.eqb_eq|].
  intros k v Hin. rewrite forallb_forall in Hall.
  specialize (Hall _ Hin). unfold dict_sub in Hall. simpl in Hall.
  destruct (dict_get e k) as [w|]; [eauto | discriminate].
Qed.

Lemma py_eq_dict_intro (d e : list (string * json)) :
  List.length d = List.length e ->
  (forall k v, In (k, v) d ->
               exists w, dict_get e k = Some w /\ py_eq v w = true) ->
  py_eq (JDict d) (JDict e) = true.
Proof.
  intros Hlen Hall. rewrite py_eq_dict. apply andb_true_intro. split.
  - now apply Nat.eqb_eq.
  - apply forallb_forall. intros [k v] Hin. unfold dict_sub. simpl.
    destruct (Hall _ _ Hin) as (w & -> & Hw). exact Hw.
Qed.

Lemma py_eq_sym (a : json) :
  forall b, wf_json a -> wf_json b -> py_eq a b = true -> py_eq b a = true.
Proof.
  induction a as [ |b0|n|q|s|items IH|entries IH] using json_induction;
    intros b Ha Hb Heq.
  - destruct b; try discriminate; reflexivity.
  - destruct b; try discriminate; simpl in *; now apply Qeq_bool_sym.
  - destruct b; try discriminate; simpl in *; now apply Qeq_bool_sym.
  - destruct b; try discriminate; simpl in *; now apply Qeq_bool_sym.
  - destruct b; try discriminate; simpl in *. now rewrite String.eqb_sym.
  - destruct b as [ | | | | |ys| ]; try discriminate.
    apply wf_json_list in Ha. apply wf_json_list in Hb.
    revert ys Hb Heq.
    induction items as [|x l IHl]; intros ys Hb Heq.
    + destruct ys; [reflexivity | discriminate].
    + destruct ys as [|y ys]; [discriminate|].
      rewrite py_eq_list_cons in Heq. apply andb_prop in Heq.
      destruct Heq as [Hxy Hrest].
      inversion IH; subst. inversion Ha; subst. inversion Hb; subst.
      rewrite py_eq_list_cons. apply andb_true_intro. split; auto.
  - destruct b as [ | | | | | |e]; try discriminate.
    apply wf_json_dict in Ha. apply wf_json_dict in Hb.
    destruct Ha as [Hnd Hwd]. destruct Hb as [Hne Hwe].
    apply py_eq_dict_inv in Heq. destruct Heq as [Hlen Hall].
    assert (Hincl : incl (keys entries) (keys e)).
    { intros k Hk. unfold keys in Hk. apply in_map_iff in Hk.
      destruct Hk as ([k' v] & Hfst & Hin). simpl in Hfst. subst k'.
      destruct (Hall _ _ Hin) as (w & Hget & _).
      apply dict_get_In in Hget. eapply In_keys; eauto. }
    assert (Hincl' : incl (keys e) (keys entries)).
    { apply NoDup_length_incl; auto. unfold keys. rewrite !length_map. lia. }
    apply py_eq_dict_intro; [lia|].
    intros k w Hin.
    assert (Hk : In k (keys entries)) by (apply Hincl'; eapply In_keys; eauto).
    unfold keys in Hk. apply in_map_iff in Hk.
    destruct Hk as ([k' v] & Hfst & Hind). simpl in Hfst. subst k'.
    exists v. split; [now apply In_dict_get|].
    destruct (Hall _ _ Hind) as (w' & Hget & Hvw).
    rewrite (In_dict_get _ _ _ Hne Hin) in Hget. injection Hget as <-.
    rewrite Forall_forall in IH, Hwd, Hwe.
    apply (IH (k, v) Hind); [apply (Hwd _ Hind) | apply (Hwe _ Hin) | exact Hvw].
Qed.

Lemma py_eq_trans (a : json) :
  forall b c, wf_json a -> wf_json b -> wf_json c ->
              py_eq a b = true -> py_eq b c = true -> py_eq a c = true.
Proof.
  induction a as [ |b0|n|q|s|items IH|entries IH] using json_induction;
    intros b c Ha Hb Hc Hab Hbc.
  - destruct b; try discriminate; exact Hbc.
  - destruct b; try discriminate; destruct c; try discriminate;
      simpl in *; eapply Qeq_bool_trans; eauto.
  - destruct b; try discriminate; destruct c; try discriminate;
      simpl in *; eapply Qeq_bool_trans; eauto.
  - destruct b; try discriminate; destruct c; try discriminate;
      simpl in *; eapply Qeq_bool_trans; eauto.
  - destruct b; try discriminate; destruct c; try discriminate; simpl in *.
    apply String.eqb_eq in Hab. subst. exact Hbc.
  - destruct b as [ | | | | |ys| ]; try discriminate.
    destruct c as [ | | | | |zs| ]; try discriminate.
    apply wf_json_list in Ha. apply wf_json_list in Hb.
    apply wf_json_list in Hc.
    revert ys zs Hb Hc Hab Hbc.
    induction items as [|x l IHl]; intros ys zs Hb Hc Hab Hbc.
    + destruct ys; [exact Hbc | discriminate].
    + destruct ys as [|y ys]; [discriminate|].
      destruct zs as [|z zs]; [discriminate|].
      rewrite py_eq_list_cons in Hab, Hbc.
      apply andb_prop in Hab. apply andb_prop in Hbc.
      destruct Hab as [Hxy Hab]. destruct Hbc as [Hyz Hbc].
      inversion IH; subst. inversion Ha; subst.
      inversion Hb; subst. inversion Hc; subst.
      rewrite py_eq_list_cons. apply andb_true_intro. split; eauto.
  - destruct b as [ | | | | | |e]; try discriminate.
    destruct c as [ | | | | | |f]; try discriminate.
    apply wf_json_dict in Ha. apply wf_json_dict in Hb.
    apply wf_json_dict in Hc.
    destruct Ha as [Hnd Hwd]. destruct Hb as [Hne Hwe].
    destruct Hc as [Hnf Hwf].
    apply py_eq_dict_inv in Hab. destruct Hab as [Hlen1 Hall1].
    apply py_eq_dict_inv in Hbc. destruct Hbc as [Hlen2 Hall2].
    apply py_eq_dict_intro; [lia|].
    intros k v Hin.
    destruct (Hall1 _ _ Hin) as (w & Hgetw & Hvw).
    assert (Hinw := dict_get_In _ _ _ Hgetw).
    destruct (Hall2 _ _ Hinw) as (u & Hgetu & Hwu).
    assert (Hinu := dict_get_In _ _ _ Hgetu).
    exists u. split; [exact Hgetu|].
    rewrite Forall_forall in IH, Hwd, Hwe, Hwf.
    apply (IH (k, v) Hin w u);
      [apply (Hwd _ Hin) | apply (Hwe _ Hinw) | apply (Hwf _ Hinu) | | ];
      assumption.
Qed.

(** ** Membership, counting and [append_new] *)

Lemma py_in_app (v : json) (l1 l2 : list json) :
  py_in v (l1 ++ l2) = py_in v l1 || py_in v l2.
Proof. unfold py_in. apply existsb_app. Qed.

Lemma py_count_app (v : json) (l1 l2 : list json) :
  py_count v (l1 ++ l2) = (py_count v l1 + py_count v l2)%nat.
Proof. unfold py_count. now rewrite filter_app, length_app. Qed.

Lemma py_in_count (v : json) (l : list json) :
  py_in v l = negb (Nat.eqb (py_count v l) 0).
Proof.
  unfold py_in, py_count. induction l as [|x l IH]; simpl; auto.
  destruct (py_eq x v); simpl; auto.
Qed.

Lemma py_in_false_count (v : json) (l : list json) :
  py_in v l = false -> py_count v l = 0%nat.
Proof.
  rewrite py_in_count. destruct (Nat.eqb (py_count v l) 0) eqn:E.
  - now apply Nat.eqb_eq in E.
  - discriminate.
Qed.

Lemma py_count_perm (v : json) (l l' : list json) :
  Permutation l l' -> py_count v l = py_count v l'.
Proof.
  unfold py_count. induction 1 as [|x l l' _ IH|x y l|l l' l'' _ IH1 _ IH2];
    simpl; auto.
  - destruct (py_eq x v); simpl; auto.
  - destruct (py_eq x v), (py_eq y v); reflexivity.
  - now rewrite IH1.
Qed.

Lemma py_in_perm (v : json) (l l' : list json) :
  Permutation l l' -> py_in v l = py_in v l'.
Proof.
  intros H. now rewrite !py_in_count, (py_count_perm v l l' H).
Qed.

Lemma py_in_exists (v : json) (l : list json) :
  py_in v l = true <-> exists x, In x l /\ py_eq x v = true.
Proof. unfold py_in. apply existsb_exists. Qed.

(** Two elements equal to a third one are equal to each other. *)
Lemma py_in_equal (a b : json) (l : list json) :
  Forall wf_json l -> wf_json a -> wf_json b ->
  py_eq a b = true -> py_in a l = py_in b l.
Proof.
  intros Hl Ha Hb Hab. rewrite Forall_forall in Hl.
  destruct (py_in b l) eqn:Eb.
  - apply py_in_exists in Eb. destruct Eb as (x & Hx & Hxb).
    apply py_in_exists. exists x. split; auto.
    apply (py_eq_trans x b a); auto. now apply py_eq_sym.
  - destruct (py_in a l) eqn:Ea; auto.
    apply py_in_exists in Ea. destruct Ea as (x & Hx & Hxa).
    assert (Hin : py_in b l = true).
    { apply py_in_exists. exists x. split; auto.
      apply (py_eq_trans x a b); auto. }
    congruence.
Qed.

Lemma append_new_app (acc l1 l2 : list json) :
  append_new acc (l1 ++ l2) = append_new (append_new acc l1) l2.
Proof.
  revert acc. induction l1 as [|x l1 IH]; intros acc; simpl; auto.
Qed.

(** [append_new] keeps the accumulated elements in place and adds, in their
    order of arrival, incoming elements none of which was present when it
    was added. *)
Lemma append_new_added (items acc : list json) :
  exists added,
    append_new acc items = acc ++ added /\
    subseq added items /\
    (forall pre a post,
        added = pre ++ a :: post -> py_in a (acc ++ pre) = false).
Proof.
  revert acc. induction items as [|item rest IH]; intros acc; simpl.
  - exists []. rewrite app_nil_r. repeat split; [constructor|].
    intros pre a post H. destruct pre; discriminate.
  - destruct (py_in item acc) eqn:E.
    + destruct (IH acc) as (added & Heq & Hsub & Hnew).
      exists added. repeat split; auto. now constructor.
    + destruct (IH (acc ++ [item])) as (added & Heq & Hsub & Hnew).
      exists (item :: added). repeat split.
      * rewrite Heq, <- app_assoc. reflexivity.
      * now constructor.
      * intros pre a post H. destruct pre as [|p pre]; simpl in H.
        -- injection H as <- _. now rewrite app_nil_r.
        -- injection H as <- H.
           specialize (Hnew pre a post H).
           now rewrite <- app_assoc in Hnew.
Qed.

Lemma append_new_wf (items acc : list json) :
  Forall wf_json acc -> Forall wf_json items ->
  Forall wf_json (append_new acc items).
Proof.
  revert acc. induction items as [|item rest IH]; intros acc Ha Hi; simpl; auto.
  inversion Hi; subst. apply IH; auto.
  destruct (py_in item acc); auto.
  apply Forall_app. split; auto.
Qed.

(** After [append_new], a value present before occurs as often as before;
    a value absent before occurs once if it was among the incoming items,
    and not at all otherwise. *)
Lemma py_count_append_new (v : json) (items acc : list json) :
  wf_json v -> Forall wf_json acc -> Forall wf_json items ->
  py_count v (append_new acc items)
  = if py_in v acc then py_count v acc
    else if py_in v items then 1%nat else 0%nat.
Proof.
  intros Hv. revert acc.
  induction items as [|item rest IH]; intros acc Ha Hi; simpl.
  - destruct (py_in v acc) eqn:E; auto. now apply py_in_false_count.
  - inversion Hi as [|? ? Hitem Hrest]; subst.
    destruct (py_eq item v) eqn:Eiv.
    + (* the incoming item is equal to [v] *)
      assert (Hsame : py_in item acc = py_in v acc)
        by (apply py_in_equal; auto).
      rewrite Hsame. destruct (py_in v acc) eqn:Ev.
      * rewrite IH by auto. now rewrite Ev.
      * rewrite IH by (auto; apply Forall_app; split; auto).
        rewrite py_in_app, Ev. simpl. rewrite Eiv. simpl.
        rewrite py_count_app, (py_in_false_count _ _ Ev).
        unfold py_count. simpl. now rewrite Eiv.
    + (* the incoming item differs from [v] *)
      simpl. destruct (py_in item acc) eqn:Ei.
      * now rewrite IH by auto.
      * rewrite IH by (auto; apply Forall_app; split; auto).
        rewrite py_in_app, py_count_app. simpl. rewrite Eiv.
        rewrite orb_false_r. unfold py_count at 2. simpl. rewrite Eiv. simpl.
        now rewrite Nat.add_0_r.
Qed.

Lemma py_in_append_new (v : json) (items acc : list json) :
  wf_json v -> Forall wf_json acc -> Forall wf_json items ->
  py_in v (append_new acc items) = py_in v acc || py_in v items.
Proof.
  intros Hv Ha Hi. rewrite py_in_count, py_count_append_new by auto.
  destruct (py_in v acc) eqn:Ea; simpl.
  - rewrite <- py_in_count. exact Ea.
  - destruct (py_in v items); reflexivity.
Qed.

(** A list in which no value occurs twice is left as it is. *)
Lemma append_new_no_duplicates (xs acc : list json) :
  Forall wf_json xs ->
  (forall v, wf_json v -> (py_count v (acc ++ xs) <= 1)%nat) ->
  append_new acc xs = acc ++ xs.
Proof.
  revert acc. induction xs as [|x xs IH]; intros acc Hwf Hnd; simpl.
  - now rewrite app_nil_r.
  - inversion Hwf as [|? ? Hx Hxs]; subst.
    assert (E : py_in x acc = false).
    { destruct (py_in x acc) eqn:E; auto.
      specialize (Hnd x Hx). rewrite py_count_app in Hnd.
      rewrite py_in_count in E.
      destruct (py_count x acc) as [|n] eqn:Ec; [discriminate|].
      unfold py_count at 1 in Hnd. simpl in Hnd.
      rewrite (py_eq_refl x Hx) in Hnd. simpl in Hnd. lia. }
    rewrite E, IH; auto.
    + now rewrite <- app_assoc.
    + intros v Hv. rewrite <- app_assoc. now apply Hnd.
Qed.

(** ** The merge, one field at a time *)

Section MergeFacts.

Variable set_order : list json -> list json.

(** The body of the loop changes the binding of its own key only, and what
    it binds to it is [merged_value]. *)
Lemma merge_entry_value (base : dict) (key : string) (value : json) :
  match merge_entry set_order base (key, value) with
  | Ok b =>
      exists r,
        merged_value set_order (dict_get base key) value = Ok r /\
        dict_get b key = Some r /\
        (forall k, key <> k -> dict_get b k = dict_get base k)
  | Err e => merged_value set_order (dict_get base key) value = Err e
  end.
Proof.
  unfold merge_entry, merged_value.
  destruct (dict_get base key) as [cur|] eqn:Hget.
  - assert (Hkeep : exists r, Ok cur = Ok r /\ dict_get base key = Some r /\
                      (forall k, key <> k -> dict_get base k = dict_get base k))
      by (exists cur; auto).
    assert (Hset : forall v, exists r, Ok v = Ok r /\
                      dict_get (dict_set base key v) key = Some r /\
                      (forall k, key <> k ->
                                 dict_get (dict_set base key v) k = dict_get base k)).
    { intros v. exists v. repeat split.
      - apply dict_get_set_same.
      - intros k Hk. now apply dict_get_set_other. }
    destruct value as [ |b|n|q|s|items|entries].
    1-5, 7:
      simpl;
      repeat (match goal with
              | |- context [if ?c then _ else _] => destruct c; simpl
              end);
      first [apply Hset | apply Hkeep].
    (* a list *)
      set (base1 := if is_list cur then base else dict_set base key (JList [])).
      set (cur_items := match cur with JList l => l | _ => [] end).
      assert (Hbase1 : dict_get base1 key = Some (JList cur_items) /\
                       forall k, key <> k -> dict_get base1 k = dict_get base k).
      { subst base1 cur_items. destruct cur; simpl;
          try (split; [apply dict_get_set_same
                      | intros k Hk; now apply dict_get_set_other]).
        split; auto. }
      destruct Hbase1 as [Hb1 Hb1'].
      assert (Hset1 : forall v, exists r, Ok v = Ok r /\
                        dict_get (dict_set base1 key v) key = Some r /\
                        (forall k, key <> k ->
                                   dict_get (dict_set base1 key v) k
                                   = dict_get base k)).
      { intros v. exists v. repeat split.
        - apply dict_get_set_same.
        - intros k Hk. rewrite dict_get_set_other by auto. now apply Hb1'. }
      destruct items as [|first rest].
      * exists (JList cur_items). auto.
      * destruct (is_dict first); [apply Hset1|].
        destruct (list_of_set set_order (cur_items ++ first :: rest))
          as [merged|e]; simpl; [apply Hset1 | reflexivity].
  - exists value. repeat split.
    + apply dict_get_set_same.
    + intros k Hk. now apply dict_get_set_other.
Qed.

Lemma merge_entry_other (base b : dict) (kv : string * json) (key : string) :
  merge_entry set_order base kv = Ok b ->
  fst kv <> key -> dict_get b key = dict_get base key.
Proof.
  destruct kv as [k v]. intros Hrun Hne. simpl in Hne.
  assert (H := merge_entry_value base k v). rewrite Hrun in H.
  destruct H as (r & _ & _ & Hother). now apply Hother.
Qed.

(** A key the incoming record does not hold keeps its value. *)
Lemma merge_loop_absent (new : dict) :
  forall (base base' : dict) (key : string),
    ~ In key (keys new) ->
    merge_loop set_order base new = Ok base' ->
    dict_get base' key = dict_get base key.
Proof.
  induction new as [|kv rest IH]; intros base base' key Hk Hrun;
    cbn [merge_loop] in Hrun.
  - now injection Hrun as <-.
  - apply bind_Ok_inv in Hrun. destruct Hrun as (b & Hentry & Hrun).
    rewrite (IH b base' key); auto.
    + apply (merge_entry_other _ _ _ _ Hentry). intros Heq. apply Hk. now left.
    + intros Hin. apply Hk. now right.
Qed.

(** What the whole loop leaves in a field is what the body of the loop
    computes from the value the field had before the call and the incoming
    value for it: the other entries do not interfere. *)
Lemma merge_loop_field (new : dict) :
  forall (base base' : dict) (key : string) (value : json),
    NoDup (keys new) ->
    In (key, value) new ->
    merge_loop set_order base new = Ok base' ->
    exists r,
      merged_value set_order (dict_get base key) value = Ok r /\
      dict_get base' key = Some r.
Proof.
  induction new as [|[k v] rest IH];
    intros base base' key value Hnd Hin Hrun; [contradiction|].
  inversion Hnd as [|? ? Hk Hrest]; subst.
  cbn [merge_loop] in Hrun. apply bind_Ok_inv in Hrun.
  destruct Hrun as (b & Hentry & Hrun).
  destruct Hin as [Heq | Hin].
  - injection Heq as -> ->.
    assert (H := merge_entry_value base key value). rewrite Hentry in H.
    destruct H as (r & Hr & Hget & _).
    exists r. split; auto.
    rewrite (merge_loop_absent rest b base' key); auto.
  - destruct (IH b base' key value Hrest Hin Hrun) as (r & Hr & Hget).
    exists r. split; auto.
    rewrite <- (merge_entry_other _ _ _ key Hentry); auto.
    simpl. intros ->. apply Hk. eapply In_keys; eauto.
Qed.

Lemma merge_loop_get (new : dict) (base base' : dict) (key : string) :
  NoDup (keys new) ->
  merge_loop set_order base new = Ok base' ->
  match dict_get new key with
  | Some value =>
      exists r, merged_value set_order (dict_get base key) value = Ok r /\
                dict_get base' key = Some r
  | None => dict_get base' key = dict_get base key
  end.
Proof.
  intros Hnd Hrun. destruct (dict_get new key) as [value|] eqn:Hget.
  - apply dict_get_In in Hget. eapply merge_loop_field; eauto.
  - apply merge_loop_absent with (new := new); auto.
    intros Hin. unfold keys in Hin. apply in_map_iff in Hin.
    destruct Hin as ([k v] & Hfst & Hin). simpl in Hfst. subst k.
    rewrite (In_dict_get _ _ _ Hnd Hin) in Hget. discriminate.
Qed.

End MergeFacts.

(** ** Lists of sub-records *)

Lemma In_py_in (x : json) (l : list json) :
  wf_json x -> In x l -> py_in x l = true.
Proof.
  intros Hwf Hin. apply py_in_exists. exists x. split; auto.
  now apply py_eq_refl.
Qed.

(** [first_seen] read at one position of the incoming list: the entry
    there is appended exactly when no equal entry occurs in [seen] or before
    it in the incoming list. *)
Lemma first_seen_split (pre : list json) :
  forall (seen : list json) (a : json) (post : list json),
    first_seen seen (pre ++ a :: post)
    = first_seen seen pre
      ++ (if py_in a (seen ++ pre) then [] else [a])
      ++ first_seen (seen ++ pre ++ [a]) post.
Proof.
  induction pre as [|p pre IH]; intros seen a post.
  - cbn [app first_seen]. rewrite app_nil_r.
    destruct (py_in a seen); reflexivity.
  - cbn [app first_seen]. rewrite !IH.
    replace ((seen ++ [p]) ++ pre) with (seen ++ p :: pre)
      by (rewrite <- app_assoc; reflexivity).
    replace ((seen ++ [p]) ++ pre ++ [a]) with (seen ++ p :: pre ++ [a])
      by (rewrite <- app_assoc; reflexivity).
    destruct (py_in p seen); reflexivity.
Qed.

(** The loop of lines 368-370 tests each incoming entry against the list as
    merged so far; on well-formed values this is the same as testing it
    against everything seen so far. *)
Lemma append_new_first_seen (items : list json) :
  forall acc seen : list json,
    Forall wf_json acc -> Forall wf_json seen -> Forall wf_json items ->
    (forall v, wf_json v -> py_in v acc = py_in v seen) ->
    append_new acc items = acc ++ first_seen seen items.
Proof.
  induction items as [|item rest IH]; intros acc seen Hacc Hseen Hitems Hsame.
  - simpl. now rewrite app_nil_r.
  - inversion Hitems as [|? ? Hitem Hrest]; subst.
    cbn [append_new first_seen]. rewrite <- (Hsame item Hitem).
    assert (Hseen' : Forall wf_json (seen ++ [item]))
      by (apply Forall_app; split; [exact Hseen | now constructor]).
    destruct (py_in item acc) eqn:Hin.
    + apply IH; auto.
      intros v Hv. rewrite py_in_app, <- (Hsame v Hv).
      unfold py_in at 3. cbn [existsb]. rewrite orb_false_r.
      destruct (py_eq item v) eqn:Heq.
      * rewrite orb_true_r. rewrite <- Hin.
        apply py_in_equal; auto. now apply py_eq_sym.
      * now rewrite orb_false_r.
    + rewrite (IH (acc ++ [item]) (seen ++ [item])); auto.
      * rewrite <- app_assoc. reflexivity.
      * apply Forall_app. split; [exact Hacc | now constructor].
      * intros v Hv. rewrite !py_in_app, (Hsame v Hv). reflexivity.
Qed.

(** C7, amended. When the incoming value of a field is a list that starts
    with a sub-record and the accumulated value is a list [xs], the merged
    list is [xs] followed by the incoming entries that are seen for the first
    time, in their order of arrival: an incoming entry is appended exactly
    when no equal entry occurs in [xs] or earlier in the incoming list
    ([first_seen]).  An entry equal to [arm] therefore occurs as often as it
    did in [xs] if it occurred there, and otherwise exactly once if [arm] is
    among the incoming entries (however many times), and not at all if it is
    not; the merged list holds no entry twice whenever [xs] held none twice.
    Entries of [xs] are never removed, so copies that [xs] already holds
    stay.  On this field the body of the loop cannot raise. *)
Theorem merge_appends_absent_subrecords
    (set_order : list json -> list json)
    (base new base' : dict) (key : string) (xs : list json)
    (d : dict) (rest : list json) :
  NoDup (keys new) ->
  dict_get base key = Some (JList xs) ->
  In (key, JList (JDict d :: rest)) new ->
  Forall wf_json xs ->
  Forall wf_json (JDict d :: rest) ->
  merge_loop set_order base new = Ok base' ->
  (exists b, merge_entry set_order base (key, JList (JDict d :: rest)) = Ok b) /\
  exists added,
    dict_get base' key = Some (JList (xs ++ added)) /\
    added = first_seen xs (JDict d :: rest) /\
    subseq added (JDict d :: rest) /\
    (forall pre a post,
        added = pre ++ a :: post -> py_in a (xs ++ pre) = false) /\
    (forall arm,
        wf_json arm ->
        py_count arm (xs ++ added)
        = if py_in arm xs then py_count arm xs
          else if py_in arm (JDict d :: rest) then 1%nat else 0%nat) /\
    ((forall v, wf_json v -> (py_count v xs <= 1)%nat) ->
     forall v, wf_json v -> (py_count v (xs ++ added) <= 1)%nat).
Proof.
  intros Hnd Hget Hin Hxs Hitems Hrun.
  destruct (merge_loop_field set_order new base base' key _ Hnd Hin Hrun)
    as (r & Hr & Hget').
  rewrite Hget in Hr. simpl in Hr. injection Hr as <-.
  split.
  - assert (H := merge_entry_value set_order base key (JList (JDict d :: rest))).
    destruct (merge_entry set_order base (key, JList (JDict d :: rest)))
      as [b|e]; [eauto|].
    rewrite Hget in H. discriminate.
  - destruct (append_new_added (JDict d :: rest) xs)
      as (added & Heq & Hsub & Hnew).
    assert (Hfirst : append_new xs (JDict d :: rest)
                     = xs ++ first_seen xs (JDict d :: rest))
      by (apply append_new_first_seen; auto).
    assert (Hcount : forall arm,
               wf_json arm ->
               py_count arm (xs ++ added)
               = if py_in arm xs then py_count arm xs
                 else if py_in arm (JDict d :: rest) then 1%nat else 0%nat).
    { intros arm Harm. rewrite <- Heq. now apply py_count_append_new. }
    exists added. split; [|split; [|split; [|split; [|split]]]].
    + rewrite Hget'. now rewrite <- Heq.
    + rewrite Hfirst in Heq. now apply app_inv_head in Heq.
    + exact Hsub.
    + exact Hnew.
    + exact Hcount.
    + intros Hone v Hv. rewrite (Hcount v Hv).
      destruct (py_in v xs); [now apply Hone|].
      destruct (py_in v (JDict d :: rest)); lia.
Qed.

Lemma wf_arm_A : wf_json arm_A.
Proof.
  simpl. repeat split; auto.
  repeat (apply NoDup_cons; [simpl; intuition discriminate|]).
  apply NoDup_nil.
Qed.

Lemma wf_arm_B : wf_json arm_B.
Proof.
  simpl. repeat split; auto.
  repeat (apply NoDup_cons; [simpl; intuition discriminate|]).
  apply NoDup_nil.
Qed.

Lemma merge_appends_absent_subrecords_witness :
  (exists b, merge_entry insertion_order [("arms", JList [])]
               ("arms", JList [arm_A; arm_B; arm_A]) = Ok b) /\
  exists added,
    dict_get [("arms", JList [arm_A; arm_B])] "arms"
    = Some (JList ([] ++ added)) /\
    added = first_seen [] [arm_A; arm_B; arm_A] /\
    subseq added [arm_A; arm_B; arm_A] /\
    (forall pre a post,
        added = pre ++ a :: post -> py_in a ([] ++ pre) = false) /\
    (forall arm,
        wf_json arm ->
        py_count arm ([] ++ added)
        = if py_in arm [] then py_count arm []
          else if py_in arm [arm_A; arm_B; arm_A] then 1%nat else 0%nat) /\
    ((forall v, wf_json v -> (py_count v [] <= 1)%nat) ->
     forall v, wf_json v -> (py_count v ([] ++ added) <= 1)%nat).
Proof.
  apply (merge_appends_absent_subrecords insertion_order
           [("arms", JList [])] [("arms", JList [arm_A; arm_B; arm_A])]
           [("arms", JList [arm_A; arm_B])] "arms" []
           [("arm_name", JStr "Arm A");
            ("treatment_description", JStr "desc");
            ("dosing_schedule", JStr "daily")] [arm_B; arm_A]).
  - apply NoDup_cons; [simpl; tauto | apply NoDup_nil].
  - reflexivity.
  - simpl. now left.
  - constructor.
  - apply Forall_cons; [apply wf_arm_A|].
    apply Forall_cons; [apply wf_arm_B|].
    apply Forall_cons; [apply wf_arm_A|]. apply Forall_nil.
  - reflexivity.
Defined.

(** C7, the input on which the claim fails: the reply for the first chunk
    lists the same arm twice.  [_process_chunk] passes the list on as it is,
    so the accumulated record holds the arm twice; merging a record that
    holds the arm twice into it appends nothing and removes nothing, and the
    merged list still has two identical entries.  With an accumulated list
    that does not hold the arm, the same incoming list leaves one entry. *)
Lemma merge_keeps_accumulated_duplicate_subrecords :
  (exists record,
      process_parsed (JDict [("arms", JList [arm_A; arm_A])]) = Ok record /\
      dict_get record "arms" = Some (JList [arm_A; arm_A])) /\
  merge_loop insertion_order
    [("arms", JList [arm_A; arm_A])] [("arms", JList [arm_A; arm_A])]
  = Ok [("arms", JList [arm_A; arm_A])] /\
  py_count arm_A [arm_A; arm_A] = 2%nat /\
  merge_loop insertion_order
    [("arms", JList [])] [("arms", JList [arm_A; arm_A])]
  = Ok [("arms", JList [arm_A])].
Proof.
  split; [|repeat split; reflexivity].
  eexists. split; reflexivity.
Qed.

(** ** Lists of scalars *)

Lemma hashable_all_wf (l : list json) :
  forallb hashable l = true -> Forall wf_json l.
Proof.
  intros H. apply Forall_forall. intros x Hx.
  rewrite forallb_forall in H. apply hashable_wf. now apply H.
Qed.

Lemma hashable_not_dict (v : json) : hashable v = true -> is_dict v = false.
Proof. destruct v; simpl; auto; discriminate. Qed.

Section SetOrder.

Variable set_order : list json -> list json.
Hypothesis set_order_perm : forall l, Permutation (set_order l) l.

(** What the scalar branch of the merge computes. *)
Lemma merged_value_scalars (xs ys : list json) (r : json) :
  forallb hashable xs = true ->
  forallb hashable ys = true ->
  merged_value set_order (Some (JList xs)) (JList ys) = Ok r ->
  r = JList (match ys with
             | [] => xs
             | _ :: _ => set_order (py_dedup (xs ++ ys))
             end).
Proof.
  intros Hxs Hys. simpl. destruct ys as [|first rest].
  - now intros [= <-].
  - assert (Hfirst : is_dict first = false).
    { apply hashable_not_dict. simpl in Hys.
      now apply andb_prop in Hys. }
    rewrite Hfirst. unfold list_of_set.
    rewrite forallb_app, Hxs, Hys. simpl. now intros [= <-].
Qed.

(** C8, amended. When the accumulated and the incoming value of a field are
    lists of scalars, the merged list holds exactly the values that occur in
    one of the two, whatever the order; when the incoming list is not empty
    no value occurs twice in it, and when the incoming list is empty it is
    the accumulated list, unchanged.  On this field the body of the loop
    cannot raise. *)
Theorem merge_scalar_lists_union
    (base new base' : dict) (key : string) (xs ys : list json) :
  NoDup (keys new) ->
  dict_get base key = Some (JList xs) ->
  In (key, JList ys) new ->
  forallb hashable xs = true ->
  forallb hashable ys = true ->
  merge_loop set_order base new = Ok base' ->
  (exists b, merge_entry set_order base (key, JList ys) = Ok b) /\
  exists zs,
    dict_get base' key = Some (JList zs) /\
    (forall v, wf_json v -> py_in v zs = py_in v xs || py_in v ys) /\
    (ys <> [] -> forall v, wf_json v -> (py_count v zs <= 1)%nat) /\
    (ys = [] -> zs = xs).
Proof.
  intros Hnd Hget Hin Hxs Hys Hrun.
  destruct (merge_loop_field set_order new base base' key _ Hnd Hin Hrun)
    as (r & Hr & Hget').
  rewrite Hget in Hr.
  split.
  - assert (H := merge_entry_value set_order base key (JList ys)).
    destruct (merge_entry set_order base (key, JList ys)) as [b|e]; [eauto|].
    rewrite Hget, Hr in H. discriminate.
  - apply merged_value_scalars in Hr; auto. subst r.
    assert (Hwx := hashable_all_wf _ Hxs).
    assert (Hwy := hashable_all_wf _ Hys).
    destruct ys as [|y ys'].
    + exists xs. repeat split; auto.
      * intros v _. simpl. now rewrite orb_false_r.
      * intros H. congruence.
    + exists (set_order (py_dedup (xs ++ y :: ys'))).
      assert (Hwall : Forall wf_json (xs ++ y :: ys'))
        by (apply Forall_app; auto).
      repeat split; auto.
      * intros v Hv. rewrite (py_in_perm v _ _ (set_order_perm _)).
        unfold py_dedup. rewrite py_in_append_new by auto.
        simpl. apply py_in_app.
      * intros _ v Hv. rewrite (py_count_perm v _ _ (set_order_perm _)).
        unfold py_dedup. rewrite py_count_append_new by auto.
        simpl. destruct (py_in v (xs ++ y :: ys')); lia.
      * discriminate.
Qed.

(** C1, amended. When the accumulated value of a field is a list [xs] and
    the incoming record holds either nothing or a list for that field, the
    field is a list after the merge and every element of [xs] is still
    present in it.  Its length is at least that of [xs] when no value occurs
    twice in [xs], and also, whatever [xs], when the incoming list starts
    with a sub-record. *)
Theorem merge_list_field_keeps_elements
    (base new base' : dict) (key : string) (xs : list json) :
  NoDup (keys new) ->
  dict_get base key = Some (JList xs) ->
  (forall v, dict_get new key = Some v -> is_list v = true /\ wf_json v) ->
  Forall wf_json xs ->
  merge_loop set_order base new = Ok base' ->
  exists ys,
    dict_get base' key = Some (JList ys) /\
    (forall x, In x xs -> py_in x ys = true) /\
    ((forall v, wf_json v -> (py_count v xs <= 1)%nat) ->
     (List.length xs <= List.length ys)%nat) /\
    (forall d rest,
        dict_get new key = Some (JList (JDict d :: rest)) ->
        (List.length xs <= List.length ys)%nat).
Proof.
  intros Hnd Hget Hnew Hxs Hrun.
  assert (Hself : forall x, In x xs -> py_in x xs = true).
  { intros x Hx. apply In_py_in; auto.
    rewrite Forall_forall in Hxs. now apply Hxs. }
  assert (H := merge_loop_get set_order new base base' key Hnd Hrun).
  destruct (dict_get new key) as [value|] eqn:Hvalue.
  - destruct (Hnew value eq_refl) as [Hlist Hwf].
    destruct value as [ | | | | |items| ]; try discriminate.
    apply wf_json_list in Hwf.
    destruct H as (r & Hr & Hget'). rewrite Hget in Hr.
    cbn [merged_value] in Hr.
    destruct items as [|first rest].
    + injection Hr as <-. exists xs. repeat split; auto.
    + destruct (is_dict first) eqn:Hfirst.
      * injection Hr as <-.
        destruct (append_new_added (first :: rest) xs)
          as (added & Heq & _ & _).
        simpl in Heq. rewrite Heq in Hget'.
        exists (xs ++ added). repeat split; auto.
        -- intros x Hx. rewrite py_in_app, (Hself x Hx). reflexivity.
        -- intros _. rewrite length_app. lia.
        -- intros _ _ _. rewrite length_app. lia.
      * unfold list_of_set in Hr.
        destruct (forallb hashable (xs ++ first :: rest)); [|discriminate].
        cbn [bind] in Hr. injection Hr as <-.
        exists (set_order (py_dedup (xs ++ first :: rest))).
        repeat split; auto.
        -- intros x Hx. rewrite (py_in_perm x _ _ (set_order_perm _)).
           unfold py_dedup. rewrite py_in_append_new.
           ++ simpl. rewrite py_in_app, (Hself x Hx). reflexivity.
           ++ rewrite Forall_forall in Hxs. now apply Hxs.
           ++ constructor.
           ++ apply Forall_app. auto.
        -- intros Hdistinct.
           rewrite (Permutation_length (set_order_perm _)).
           unfold py_dedup. rewrite append_new_app.
           rewrite (append_new_no_duplicates xs []); auto. cbn [app].
           destruct (append_new_added (first :: rest) xs)
             as (added & Heq & _ & _).
           rewrite Heq, length_app. lia.
        -- intros d rest' Habs. injection Habs as Habs _. subst first.
           simpl in Hfirst. discriminate.
  - exists xs. rewrite H. repeat split; auto.
Qed.

End SetOrder.

(** ** Fill-once fields *)

Lemma merged_value_scalar (set_order : list json -> list json)
      (old v : json) :
  is_str v || is_number v = true ->
  merged_value set_order (Some old) v
  = Ok (if truthy v && negb (truthy old) then v else old).
Proof.
  intros Hkind.
  destruct v; simpl in *; try discriminate;
    repeat match goal with
           | |- context [if ?c then _ else _] => destruct c; simpl
           end; reflexivity.
Qed.

Lemma first_truthy_step (old w : json) (vs : list json) :
  first_truthy (if truthy w && negb (truthy old) then w else old) vs
  = first_truthy old (w :: vs).
Proof.
  unfold first_truthy. simpl.
  destruct (truthy old) eqn:Eo; simpl.
  - rewrite andb_false_r. now rewrite Eo.
  - rewrite andb_true_r. destruct (truthy w) eqn:Ew.
    + now rewrite Ew.
    + now rewrite Eo.
Qed.

Lemma merge_all_fill_once (set_order : list json -> list json) (key : string)
      (news : list dict) (vs : list json) :
  scalar_updates key news vs ->
  forall base old final,
    dict_get base key = Some old ->
    merge_all set_order base news = Ok final ->
    dict_get final key = Some (first_truthy old vs).
Proof.
  induction 1 as [|new v news vs (Hnd & Hin & Hkind) _ IH];
    intros base old final Hget Hrun; cbn [merge_all] in Hrun.
  - injection Hrun as <-. rewrite Hget. unfold first_truthy. simpl.
    now destruct (truthy old).
  - apply bind_Ok_inv in Hrun. destruct Hrun as (b & Hstep & Hrun).
    destruct (merge_loop_field set_order new base b key v Hnd Hin Hstep)
      as (r & Hr & Hget').
    rewrite Hget, merged_value_scalar in Hr by exact Hkind.
    injection Hr as <-.
    rewrite (IH _ _ _ Hget' Hrun). f_equal. apply first_truthy_step.
Qed.

(** C2, amended. When the incoming value of a field is a string or a number,
    the merge replaces the accumulated value only if the accumulated value
    is falsy and the incoming value is truthy, and then by the incoming
    value; a truthy accumulated value is kept.  Merging the same incoming
    record a second time changes nothing in that field, and over a sequence
    of incoming records whose values for the field are strings or numbers
    the field ends with the first truthy value.  On this field the body of
    the loop cannot raise. *)
Theorem merge_fill_once
    (set_order : list json -> list json)
    (base new base' : dict) (key : string) (old v : json) :
  NoDup (keys new) ->
  dict_get base key = Some old ->
  In (key, v) new ->
  is_str v || is_number v = true ->
  merge_loop set_order base new = Ok base' ->
  (exists b, merge_entry set_order base (key, v) = Ok b) /\
  dict_get base' key = Some (if truthy v && negb (truthy old) then v else old) /\
  (truthy old = true -> dict_get base' key = Some old) /\
  (forall base'',
      merge_loop set_order base' new = Ok base'' ->
      dict_get base'' key = dict_get base' key) /\
  (forall news vs final,
      scalar_updates key news vs ->
      merge_all set_order base news = Ok final ->
      dict_get final key = Some (first_truthy old vs)).
Proof.
  intros Hnd Hget Hin Hkind Hrun.
  destruct (merge_loop_field set_order new base base' key v Hnd Hin Hrun)
    as (r & Hr & Hget').
  rewrite Hget, merged_value_scalar in Hr by exact Hkind.
  injection Hr as <-.
  repeat split.
  - assert (H := merge_entry_value set_order base key v).
    destruct (merge_entry set_order base (key, v)) as [b|e]; [eauto|].
    rewrite Hget, merged_value_scalar in H by exact Hkind. discriminate.
  - exact Hget'.
  - intros Hold. rewrite Hget', Hold, andb_false_r. reflexivity.
  - intros base'' Hrun'.
    destruct (merge_loop_field set_order new base' base'' key v Hnd Hin Hrun')
      as (r & Hr & Hget'').
    rewrite Hget', merged_value_scalar in Hr by exact Hkind.
    injection Hr as <-. rewrite Hget'', Hget'. f_equal.
    destruct (truthy v) eqn:Ev, (truthy old) eqn:Eo; simpl;
      rewrite ?Ev, ?Eo; reflexivity.
  - intros news vs final Hups Hall.
    apply (merge_all_fill_once set_order key news vs Hups base old final);
      assumption.
Qed.

(** ** Concrete records *)

Lemma merge_scalar_lists_union_witness :
  (exists b, merge_entry insertion_order
               [("primary_objectives", JList [JStr "A"; JStr "B"])]
               ("primary_objectives", JList [JStr "B"; JStr "C"]) = Ok b) /\
  exists zs,
    dict_get [("primary_objectives", JList [JStr "A"; JStr "B"; JStr "C"])]
      "primary_objectives" = Some (JList zs) /\
    (forall v, wf_json v ->
               py_in v zs
               = py_in v [JStr "A"; JStr "B"] || py_in v [JStr "B"; JStr "C"]) /\
    ([JStr "B"; JStr "C"] <> [] ->
     forall v, wf_json v -> (py_count v zs <= 1)%nat) /\
    ([JStr "B"; JStr "C"] = [] -> zs = [JStr "A"; JStr "B"]).
Proof.
  apply (merge_scalar_lists_union insertion_order
           (fun l => Permutation_refl l)
           [("primary_objectives", JList [JStr "A"; JStr "B"])]
           [("primary_objectives", JList [JStr "B"; JStr "C"])]
           [("primary_objectives", JList [JStr "A"; JStr "B"; JStr "C"])]
           "primary_objectives" [JStr "A"; JStr "B"] [JStr "B"; JStr "C"]).
  - apply NoDup_cons; [simpl; tauto | apply NoDup_nil].
  - reflexivity.
  - simpl. now left.
  - reflexivity.
  - reflexivity.
  - reflexivity.
Defined.

(** C8, the input on which the claim fails: the accumulated list holds
    ["A"] twice and the incoming list is empty.  Line 365 skips the merge, so
    the list keeps both copies. *)
Lemma merge_empty_incoming_keeps_duplicates :
  merge_loop insertion_order
    [("primary_objectives", JList [JStr "A"; JStr "A"])]
    [("primary_objectives", JList [])]
  = Ok [("primary_objectives", JList [JStr "A"; JStr "A"])] /\
  py_count (JStr "A") [JStr "A"; JStr "A"] = 2%nat.
Proof. split; reflexivity. Qed.

Lemma merge_list_field_keeps_elements_witness :
  exists ys,
    dict_get [("primary_objectives",
               JList [JStr "Assess safety"; JStr "Assess efficacy"])]
      "primary_objectives" = Some (JList ys) /\
    (forall x, In x [JStr "Assess safety"] -> py_in x ys = true) /\
    ((forall v, wf_json v -> (py_count v [JStr "Assess safety"] <= 1)%nat) ->
     (List.length [JStr "Assess safety"] <= List.length ys)%nat) /\
    (forall d rest,
        dict_get [("primary_objectives", JList [JStr "Assess efficacy"])]
          "primary_objectives" = Some (JList (JDict d :: rest)) ->
        (List.length [JStr "Assess safety"] <= List.length ys)%nat).
Proof.
  apply (merge_list_field_keeps_elements insertion_order
           (fun l => Permutation_refl l)
           [("primary_objectives", JList [JStr "Assess safety"])]
           [("primary_objectives", JList [JStr "Assess efficacy"])]
           [("primary_objectives",
             JList [JStr "Assess safety"; JStr "Assess efficacy"])]
           "primary_objectives" [JStr "Assess safety"]).
  - apply NoDup_cons; [simpl; tauto | apply NoDup_nil].
  - reflexivity.
  - intros v Hv. injection Hv as <-. split; [reflexivity | simpl; auto].
  - apply Forall_cons; [exact I | apply Forall_nil].
  - reflexivity.
Defined.

(** C1, the input on which the claim fails: the accumulated list holds the
    same objective twice and the incoming list holds it once.  The list that
    results from [list(set(...))] has one element, whatever order the set
    is enumerated in. *)
Lemma merge_shrinks_list_with_duplicates :
  merge_loop insertion_order
    [("primary_objectives", JList [JStr "Assess safety"; JStr "Assess safety"])]
    [("primary_objectives", JList [JStr "Assess safety"])]
  = Ok [("primary_objectives", JList [JStr "Assess safety"])] /\
  (List.length [JStr "Assess safety"]
   < List.length [JStr "Assess safety"; JStr "Assess safety"])%nat.
Proof. split; [reflexivity | simpl; lia]. Qed.

Lemma merge_fill_once_witness :
  (exists b, merge_entry insertion_order [("sample_size", JInt 0)]
               ("sample_size", JInt 120) = Ok b) /\
  dict_get [("sample_size", JInt 120)] "sample_size"
  = Some (if truthy (JInt 120) && negb (truthy (JInt 0))
          then JInt 120 else JInt 0) /\
  (truthy (JInt 0) = true ->
   dict_get [("sample_size", JInt 120)] "sample_size" = Some (JInt 0)) /\
  (forall base'',
      merge_loop insertion_order [("sample_size", JInt 120)]
        [("sample_size", JInt 120)] = Ok base'' ->
      dict_get base'' "sample_size"
      = dict_get [("sample_size", JInt 120)] "sample_size") /\
  (forall news vs final,
      scalar_updates "sample_size" news vs ->
      merge_all insertion_order [("sample_size", JInt 0)] news = Ok final ->
      dict_get final "sample_size" = Some (first_truthy (JInt 0) vs)).
Proof.
  apply (merge_fill_once insertion_order
           [("sample_size", JInt 0)] [("sample_size", JInt 120)]
           [("sample_size", JInt 120)] "sample_size" (JInt 0) (JInt 120)).
  - apply NoDup_cons; [simpl; tauto | apply NoDup_nil].
  - reflexivity.
  - simpl. now left.
  - reflexivity.
  - reflexivity.
Defined.

(** C2, the input on which the claim fails: the title is populated and the
    incoming record holds a list for it, empty or not.  Line 362 takes the
    list branch, and line 364 resets the title to the empty list before
    anything is merged. *)
Lemma merge_list_overwrites_populated_scalar :
  truthy (JStr "Study X") = true /\
  merge_loop insertion_order
    [("protocol_title", JStr "Study X")] [("protocol_title", JList [])]
  = Ok [("protocol_title", JList [])] /\
  merge_loop insertion_order
    [("protocol_title", JStr "Study X")]
    [("protocol_title", JList [JStr "Other"])]
  = Ok [("protocol_title", JList [JStr "Other"])].
Proof. repeat split; reflexivity. Qed.

(** * Further properties

    What the chunker, the extractor, the merger, the driver and the
    renderer guarantee beyond the statements above. *)

(** ** The chunker: groups of sentences *)

Lemma len_append (s t : string) : len (s ++ t)%string = (len s + len t)%Z.
Proof.
  unfold len. induction s as [|c s IH]; simpl String.length.
  - reflexivity.
  - rewrite !Nat2Z.inj_succ. simpl in IH. lia.
Qed.

Lemma len_nonneg (s : string) : (0 <= len s)%Z.
Proof. unfold len. lia. Qed.

Lemma sum_len_cons (s : string) (g : list string) :
  sum_len (s :: g) = (len s + sum_len g)%Z.
Proof. reflexivity. Qed.

Lemma sum_len_single (s : string) : sum_len [s] = len s.
Proof. unfold sum_len. simpl. lia. Qed.

Lemma sum_len_app (g h : list string) :
  sum_len (g ++ h) = (sum_len g + sum_len h)%Z.
Proof.
  induction g as [|s g IH]; simpl; [reflexivity|].
  unfold sum_len in *. simpl. rewrite IH. lia.
Qed.

Lemma sum_len_nonneg (g : list string) : (0 <= sum_len g)%Z.
Proof.
  induction g as [|s g IH]; unfold sum_len in *; simpl; [lia|].
  pose proof (len_nonneg s). lia.
Qed.

Lemma join_dot_space_cons (p : string) (rest : list string) :
  rest <> [] ->
  join_dot_space (p :: rest) = (p ++ ". " ++ join_dot_space rest)%string.
Proof. destruct rest; [congruence | reflexivity]. Qed.

Lemma append_assoc (s t u : string) :
  ((s ++ t) ++ u)%string = (s ++ (t ++ u))%string.
Proof. induction s as [|c s IH]; simpl; [reflexivity | now rewrite IH]. Qed.

Lemma append_empty_r (s : string) : (s ++ "")%string = s.
Proof. induction s as [|c s IH]; simpl; [reflexivity | now rewrite IH]. Qed.

(** Joining what [split] returns gives the text back. *)
Lemma join_split_from (n : nat) :
  forall (s cur : string),
    (String.length s <= n)%nat ->
    join_dot_space (split_from cur s) = (cur ++ s)%string.
Proof.
  induction n as [|n IH]; intros s cur Hlen.
  - destruct s; [|simpl in Hlen; lia]. simpl. now rewrite append_empty_r.
  - destruct s as [|c rest]; [simpl; now rewrite append_empty_r|].
    simpl in Hlen. cbn [split_from].
    destruct rest as [|d rest'].
    + reflexivity.
    + destruct (Ascii.eqb c "." && Ascii.eqb d " ") eqn:E.
      * apply andb_prop in E. destruct E as [Ec Ed].
        apply Ascii.eqb_eq in Ec. apply Ascii.eqb_eq in Ed. subst c d.
        rewrite join_dot_space_cons by apply split_from_nonempty.
        rewrite IH by (simpl in Hlen; lia). reflexivity.
      * rewrite IH by lia. rewrite append_assoc. reflexivity.
Qed.

(** ['. '.join(s.split('. '))] is [s]. *)
Lemma join_split_dot_space (s : string) :
  join_dot_space (split_dot_space s) = s.
Proof.
  unfold split_dot_space.
  now rewrite (join_split_from (String.length s) s EmptyString (le_n _)).
Qed.

Lemma len_join_dot_space (g : list string) :
  g <> [] ->
  len (join_dot_space g)
  = (sum_len g + 2 * (Z.of_nat (List.length g) - 1))%Z.
Proof.
  induction g as [|s g IH]; [congruence|]. intros _.
  destruct g as [|t g].
  - unfold sum_len. simpl. lia.
  - rewrite join_dot_space_cons by discriminate.
    rewrite !len_append, IH by discriminate.
    change (len ". ") with 2%Z.
    change (sum_len (s :: t :: g)) with (len s + sum_len (t :: g))%Z.
    change (List.length (s :: t :: g)) with (S (List.length (t :: g))).
    rewrite Nat2Z.inj_succ. lia.
Qed.

Lemma len_close_chunk (g : list string) :
  g <> [] ->
  len (close_chunk g) = (sum_len g + 2 * Z.of_nat (List.length g) - 1)%Z.
Proof.
  intros Hg. unfold close_chunk.
  rewrite len_append, len_join_dot_space by exact Hg.
  change (len ".") with 1%Z. lia.
Qed.

(** What the loop does to its state: it closes groups of consecutive
    sentences, keeps the sentences in order, and keeps [current_size] equal
    to the summed lengths of the sentences of the open group. *)
Lemma chunk_fold_groups (max : Z) (sentences : list string) :
  forall st,
    current_size st = sum_len (current_chunk st) ->
    group_within max (current_chunk st) ->
    exists groups,
      chunks (fold_left (chunk_step max) sentences st)
      = chunks st ++ map close_chunk groups /\
      List.concat groups ++ current_chunk (fold_left (chunk_step max) sentences st)
      = current_chunk st ++ sentences /\
      group_within max
        (current_chunk (fold_left (chunk_step max) sentences st)) /\
      Forall (group_within max) groups /\
      (current_chunk st <> [] -> Forall (fun g => g <> []) groups) /\
      Forall (fun g => g <> []) (tl groups).
Proof.
  induction sentences as [|s rest IH]; intros st Hsize Hok.
  - exists []. simpl. rewrite !app_nil_r. repeat split; auto.
  - cbn [fold_left]. unfold chunk_step at 2 4 6.
    destruct (current_size st + len s >? max)%Z eqn:E.
    + destruct (IH (mk_chunk_state (chunks st ++ [close_chunk (current_chunk st)])
                      [s] (len s)))
        as (groups & Hch & Hcat & Hcur & Hall & Hne & _).
      * cbn [current_size current_chunk]. now rewrite sum_len_single.
      * left. simpl. lia.
      * exists (current_chunk st :: groups). cbn [chunks current_chunk] in *.
        repeat split; auto.
        -- rewrite Hch, <- app_assoc. reflexivity.
        -- cbn [List.concat]. rewrite <- app_assoc, Hcat. reflexivity.
        -- intros Hst. constructor; auto. apply Hne. discriminate.
        -- cbn [tl]. apply Hne. discriminate.
    + destruct (IH (mk_chunk_state (chunks st) (current_chunk st ++ [s])
                      (current_size st + len s)%Z))
        as (groups & Hch & Hcat & Hcur & Hall & Hne & _).
      * cbn [current_size current_chunk].
        rewrite sum_len_app, sum_len_single, Hsize. reflexivity.
      * right. cbn [current_chunk].
        rewrite sum_len_app, sum_len_single, <- Hsize. lia.
      * assert (Hgroups : Forall (fun g : list string => g <> []) groups).
        { apply Hne. cbn [current_chunk].
          destruct (current_chunk st); discriminate. }
        exists groups. cbn [chunks current_chunk] in *.
        repeat split; auto.
        -- rewrite Hcat, <- app_assoc. reflexivity.
        -- destruct groups; [constructor|].
           cbn [tl]. now inversion Hgroups.
Qed.

Lemma chunk_text_groups (text : string) (max : Z) :
  exists groups,
    _chunk_text text max = map close_chunk groups /\
    List.concat groups = split_dot_space (replace_newlines text) /\
    Forall (group_within max) groups /\
    Forall (fun g => g <> []) (tl groups).
Proof.
  unfold _chunk_text.
  set (sentences := split_dot_space (replace_newlines text)).
  assert (Hcur : current_chunk (chunk_loop max sentences) <> []).
  { apply chunk_fold_current. left. apply split_from_nonempty. }
  destruct (chunk_fold_groups max sentences (mk_chunk_state [] [] 0%Z))
    as (groups & Hch & Hcat & Hok & Hall & _ & Htl).
  - reflexivity.
  - left. simpl. lia.
  - fold (chunk_loop max sentences) in Hch, Hcat, Hok.
    cbn [chunks current_chunk app] in Hch, Hcat.
    exists (groups ++ [current_chunk (chunk_loop max sentences)]).
    destruct (current_chunk (chunk_loop max sentences)) as [|c0 cs] eqn:Ec;
      [congruence|].
    repeat split.
    + rewrite Hch, map_app. reflexivity.
    + rewrite List.concat_app. simpl. rewrite app_nil_r. exact Hcat.
    + apply Forall_app. split; auto.
    + destruct groups as [|g groups]; [constructor|].
      cbn [tl app]. apply Forall_app. split; auto.
Qed.

(** The chunks are the sentences of the text, in their order, cut into
    consecutive groups, each group joined by ['. '] and closed by a period;
    only the first group can be empty.  Joining all the sentences of the
    groups by ['. '] gives back the text (newlines replaced): no character
    is lost. *)
Theorem chunk_text_partition (text : string) (max_chunk_size : Z) :
  exists groups,
    _chunk_text text max_chunk_size = map close_chunk groups /\
    List.concat groups = split_dot_space (replace_newlines text) /\
    join_dot_space (List.concat groups) = replace_newlines text /\
    Forall (fun g => g <> []) (tl groups).
Proof.
  destruct (chunk_text_groups text max_chunk_size)
    as (groups & H1 & H2 & _ & H3).
  exists groups. repeat split; auto.
  rewrite H2. apply join_split_dot_space.
Qed.

(** The limit bounds the sentences of a chunk, not the chunk: a chunk of two
    or more sentences holds sentences whose lengths add up to at most
    [max_chunk_size], and is itself [2n - 1] characters longer than that sum
    for its [n] sentences (the separators and the final period).  A chunk
    of one sentence can have any length. *)
Theorem chunk_text_size_bound (text : string) (max_chunk_size : Z) :
  exists groups,
    _chunk_text text max_chunk_size = map close_chunk groups /\
    List.concat groups = split_dot_space (replace_newlines text) /\
    Forall
      (fun g =>
         (List.length g <= 1)%nat \/
         (sum_len g <= max_chunk_size)%Z /\
         len (close_chunk g)
         = (sum_len g + 2 * Z.of_nat (List.length g) - 1)%Z)
      groups.
Proof.
  destruct (chunk_text_groups text max_chunk_size)
    as (groups & Hch & Hcat & Hok & _).
  exists groups. split; [exact Hch|]. split; [exact Hcat|].
  apply Forall_forall. intros g Hg.
  rewrite Forall_forall in Hok. specialize (Hok g Hg).
  destruct Hok as [Hok|Hok]; [now left|].
  destruct g as [|s g]; [left; simpl; lia|].
  right. split; [exact Hok|]. apply len_close_chunk. discriminate.
Qed.

Lemma replace_newlines_length (s : string) :
  String.length (replace_newlines s) = String.length s.
Proof. induction s as [|c s IH]; simpl; [reflexivity | now rewrite IH]. Qed.

Lemma chunk_fold_no_close (max : Z) (sentences : list string) :
  forall st,
    current_size st = sum_len (current_chunk st) ->
    (sum_len (current_chunk st) + sum_len sentences <= max)%Z ->
    chunks (fold_left (chunk_step max) sentences st) = chunks st /\
    current_chunk (fold_left (chunk_step max) sentences st)
    = current_chunk st ++ sentences.
Proof.
  induction sentences as [|s rest IH]; intros st Hsize Hsum.
  - simpl. now rewrite app_nil_r.
  - cbn [fold_left]. rewrite sum_len_cons in Hsum.
    pose proof (sum_len_nonneg rest) as Hrest.
    assert (E : (current_size st + len s >? max)%Z = false)
      by (rewrite Z.gtb_ltb; apply Z.ltb_ge; lia).
    destruct (IH (chunk_step max st s)) as [Hch Hcur].
    + unfold chunk_step. rewrite E. cbn [current_size current_chunk].
      rewrite sum_len_app, sum_len_single, Hsize. reflexivity.
    + unfold chunk_step. rewrite E. cbn [current_chunk].
      rewrite sum_len_app, sum_len_single. lia.
    + rewrite Hch, Hcur. unfold chunk_step. rewrite E.
      cbn [chunks current_chunk]. now rewrite <- app_assoc.
Qed.

Lemma chunk_text_one_chunk (text : string) (max_chunk_size : Z) :
  (len text <= max_chunk_size)%Z ->
  _chunk_text text max_chunk_size = [(replace_newlines text ++ ".")%string].
Proof.
  intros Hlen. unfold _chunk_text.
  set (sentences := split_dot_space (replace_newlines text)).
  assert (Hne : sentences <> []) by apply split_from_nonempty.
  assert (Hjoin : join_dot_space sentences = replace_newlines text)
    by apply join_split_dot_space.
  assert (Hsum : (sum_len sentences <= max_chunk_size)%Z).
  { assert (H := len_join_dot_space sentences Hne). rewrite Hjoin in H.
    unfold len at 1 in H. rewrite replace_newlines_length in H.
    fold (len text) in H.
    destruct sentences; [congruence|]. simpl List.length in H. lia. }
  destruct (chunk_fold_no_close max_chunk_size sentences
              (mk_chunk_state [] [] 0%Z)) as [Hch Hcur].
  - reflexivity.
  - cbn [current_chunk]. unfold sum_len at 1. simpl. lia.
  - fold (chunk_loop max_chunk_size sentences) in Hch, Hcur.
    rewrite Hch, Hcur. cbn [chunks current_chunk app].
    destruct sentences as [|s rest]; [congruence|].
    unfold close_chunk. now rewrite Hjoin.
Qed.

(** A text of at most [max_chunk_size] characters comes back as one
    chunk, the text with its newlines replaced by spaces and a period added
    at the end. *)
Theorem chunk_text_short_text (text : string) (max_chunk_size : Z) :
  (len text <= max_chunk_size)%Z ->
  _chunk_text text max_chunk_size = [(replace_newlines text ++ ".")%string].
Proof. apply chunk_text_one_chunk. Qed.

Lemma chunk_text_short_text_witness :
  (len "ab. cd" <= 10)%Z /\
  _chunk_text "ab. cd" 10 = [(replace_newlines "ab. cd" ++ ".")%string].
Proof.
  split; [discriminate | apply (chunk_text_short_text "ab. cd" 10); discriminate].
Defined.

(** When the first sentence of the text is longer than
    [max_chunk_size], the first chunk returned holds no sentence at all: it
    is the lone period, and the sentence starts the second chunk. *)
Theorem chunk_text_oversized_first_sentence
    (text : string) (max_chunk_size : Z) (s : string) (rest : list string) :
  split_dot_space (replace_newlines text) = s :: rest ->
  (max_chunk_size < len s)%Z ->
  exists g tail,
    _chunk_text text max_chunk_size = "." :: close_chunk (s :: g) :: tail.
Proof.
  intros Hsplit Hlong.
  assert (E : (0 + len s >? max_chunk_size)%Z = true)
    by (rewrite Z.gtb_ltb; apply Z.ltb_lt; lia).
  destruct (chunk_fold_groups max_chunk_size rest
              (mk_chunk_state [close_chunk []] [s] (len s)))
    as (groups1 & Hch1 & Hcat1 & _ & _ & Hne1 & _).
  - cbn [current_size current_chunk]. now rewrite sum_len_single.
  - left. simpl. lia.
  - cbn [chunks current_chunk] in Hch1, Hcat1, Hne1.
    assert (Hcur : current_chunk
                     (fold_left (chunk_step max_chunk_size) rest
                        (mk_chunk_state [close_chunk []] [s] (len s))) <> []).
    { apply chunk_fold_current. right. discriminate. }
    assert (Hstep : chunk_step max_chunk_size (mk_chunk_state [] [] 0%Z) s
                    = mk_chunk_state [close_chunk []] [s] (len s)).
    { unfold chunk_step. cbn [current_size current_chunk chunks].
      rewrite E. reflexivity. }
    unfold _chunk_text. rewrite Hsplit. unfold chunk_loop. cbn [fold_left].
    rewrite Hstep.
    destruct (current_chunk
                (fold_left (chunk_step max_chunk_size) rest
                   (mk_chunk_state [close_chunk []] [s] (len s))))
      as [|c0 cs] eqn:Ecur; [congruence|].
    rewrite Hch1. cbn [app].
    specialize (Hne1 ltac:(discriminate)).
    destruct groups1 as [|g1 groups1].
    + simpl in Hcat1. injection Hcat1 as -> ->.
      exists rest, []. reflexivity.
    + inversion Hne1 as [|? ? Hg1 _]; subst.
      destruct g1 as [|s1 g1]; [congruence|].
      simpl in Hcat1. injection Hcat1 as -> _.
      exists g1, (map close_chunk groups1 ++ [close_chunk (c0 :: cs)]).
      reflexivity.
Qed.

Lemma chunk_text_oversized_first_sentence_witness :
  exists g tail,
    _chunk_text "abcdef. x" 4 = "." :: close_chunk ("abcdef" :: g) :: tail.
Proof.
  apply (chunk_text_oversized_first_sentence "abcdef. x" 4 "abcdef" ["x"]).
  - reflexivity.
  - reflexivity.
Defined.

Lemma chunk_fold_greedy (max : Z) (sentences : list string) :
  forall st,
    current_size st = sum_len (current_chunk st) ->
    exists groups tl rest,
      chunks (fold_left (chunk_step max) sentences st)
      = chunks st ++ map close_chunk groups /\
      groups ++ [current_chunk (fold_left (chunk_step max) sentences st)]
      = (current_chunk st ++ tl) :: rest /\
      List.concat (groups ++
                   [current_chunk (fold_left (chunk_step max) sentences st)])
      = current_chunk st ++ sentences /\
      greedy_groups max
        (groups ++ [current_chunk (fold_left (chunk_step max) sentences st)]).
Proof.
  induction sentences as [|s rest IH]; intros st Hsize.
  - exists [], [], []. simpl. rewrite !app_nil_r. auto.
  - cbn [fold_left].
    destruct (current_size st + len s >? max)%Z eqn:E.
    + assert (Hstep : chunk_step max st s
                      = mk_chunk_state
                          (chunks st ++ [close_chunk (current_chunk st)])
                          [s] (len s))
        by (unfold chunk_step; now rewrite E).
      rewrite Hstep.
      destruct (IH (mk_chunk_state
                      (chunks st ++ [close_chunk (current_chunk st)])
                      [s] (len s)))
        as (groups & tl & rest' & Hch & Hhd & Hcat & Hgr).
      * cbn [current_size current_chunk]. now rewrite sum_len_single.
      * cbn [chunks current_chunk] in Hch, Hhd, Hcat.
        exists (current_chunk st :: groups), [],
          (groups ++ [current_chunk
                        (fold_left (chunk_step max) rest
                           (mk_chunk_state
                              (chunks st ++ [close_chunk (current_chunk st)])
                              [s] (len s)))]).
        repeat split.
        -- rewrite Hch, <- app_assoc. reflexivity.
        -- rewrite app_nil_r. reflexivity.
        -- cbn [app List.concat]. rewrite Hcat. reflexivity.
        -- cbn [app]. rewrite Hhd in *. cbn [app greedy_groups].
           split; [|exact Hgr].
           rewrite Z.gtb_ltb in E. apply Z.ltb_lt in E. lia.
    + assert (Hstep : chunk_step max st s
                      = mk_chunk_state (chunks st) (current_chunk st ++ [s])
                          (current_size st + len s))
        by (unfold chunk_step; now rewrite E).
      rewrite Hstep.
      destruct (IH (mk_chunk_state (chunks st) (current_chunk st ++ [s])
                      (current_size st + len s)%Z))
        as (groups & tl & rest' & Hch & Hhd & Hcat & Hgr).
      * cbn [current_size current_chunk].
        rewrite sum_len_app, sum_len_single, Hsize. reflexivity.
      * cbn [chunks current_chunk] in Hch, Hhd, Hcat.
        exists groups, (s :: tl), rest'.
        repeat split; auto.
        -- rewrite Hhd, <- app_assoc. reflexivity.
        -- rewrite Hcat, <- app_assoc. reflexivity.
Qed.

(** The chunker is greedy: the chunks are consecutive groups of the
    sentences of the text, and a group ends only where adding the next
    sentence would take the summed lengths of its sentences past
    [max_chunk_size].  No chunk is closed earlier than the limit demands. *)
Theorem chunk_text_greedy (text : string) (max_chunk_size : Z) :
  exists groups,
    _chunk_text text max_chunk_size = map close_chunk groups /\
    List.concat groups = split_dot_space (replace_newlines text) /\
    greedy_groups max_chunk_size groups.
Proof.
  unfold _chunk_text.
  set (sentences := split_dot_space (replace_newlines text)).
  assert (Hcur : current_chunk (chunk_loop max_chunk_size sentences) <> []).
  { apply chunk_fold_current. left. apply split_from_nonempty. }
  destruct (chunk_fold_greedy max_chunk_size sentences
              (mk_chunk_state [] [] 0%Z) eq_refl)
    as (groups & tl & rest & Hch & _ & Hcat & Hgr).
  fold (chunk_loop max_chunk_size sentences) in Hch, Hcat, Hgr.
  cbn [chunks current_chunk app] in Hch, Hcat.
  exists (groups ++ [current_chunk (chunk_loop max_chunk_size sentences)]).
  destruct (current_chunk (chunk_loop max_chunk_size sentences))
    as [|c0 cs] eqn:Ec; [congruence|].
  repeat split; auto.
  rewrite Hch, map_app. reflexivity.
Qed.

Lemma Ok_inj {A : Type} (a b : A) : Ok a = Ok b -> a = b.
Proof. now intros [= ->]. Qed.

(** ** The extractor: the whole record *)

Lemma dict_mem_In {A : Type} (d : list (string * A)) (key : string) :
  dict_mem d key = true <-> In key (keys d).
Proof.
  unfold dict_mem. induction d as [|[k v] d IH]; simpl.
  - split; [discriminate | contradiction].
  - destruct (String.eqb k key) eqn:E.
    + apply String.eqb_eq in E. subst. split; auto.
    + rewrite IH. split; auto. intros [H|H]; auto.
      subst. rewrite String.eqb_refl in E. discriminate.
Qed.

Lemma keys_dict_set {A : Type} (d : list (string * A)) (key : string) (v : A) :
  keys (dict_set d key v)
  = if dict_mem d key then keys d else keys d ++ [key].
Proof.
  unfold dict_mem. induction d as [|[k w] d IH]; simpl; [reflexivity|].
  destruct (String.eqb k key) eqn:E; simpl; [reflexivity|].
  rewrite IH. destruct (dict_get d key); reflexivity.
Qed.

Lemma keys_extended_nil (ks : list string) : keys_extended ks [] ks.
Proof.
  exists []. rewrite app_nil_r. split; [reflexivity|]. split; [constructor|].
  intros k. simpl. tauto.
Qed.

Lemma keys_extended_step (ks ks1 ks' : list string) (k : string)
      (incoming : list string) :
  ks1 = (if existsb (String.eqb k) ks then ks else ks ++ [k]) ->
  keys_extended ks1 incoming ks' ->
  keys_extended ks (k :: incoming) ks'.
Proof.
  intros -> (extra & -> & Hnd & Hiff).
  destruct (existsb (String.eqb k) ks) eqn:E.
  - assert (Hk : In k ks).
    { apply existsb_exists in E. destruct E as (x & Hx & Hxk).
      apply String.eqb_eq in Hxk. now subst. }
    exists extra. split; [reflexivity|]. split; [exact Hnd|].
    intros k0. rewrite Hiff. simpl. split.
    + intros [Hin Hnot]. auto.
    + intros [[Heq|Hin] Hnot]; [subst; contradiction | auto].
  - assert (Hk : ~ In k ks).
    { intros Hin. assert (existsb (String.eqb k) ks = true).
      { apply existsb_exists. exists k. split; auto. apply String.eqb_refl. }
      congruence. }
    exists (k :: extra). split; [now rewrite <- app_assoc|]. split.
    + constructor; auto. intros Hin. apply Hiff in Hin.
      destruct Hin as [_ Hnot]. apply Hnot. apply in_or_app. right. now left.
    + intros k0. simpl. rewrite Hiff. split.
      * intros [<-|[Hin Hnot]]; [auto|]. split; [auto|].
        intros Hks. apply Hnot. apply in_or_app. now left.
      * intros [[Heq|Hin] Hnot]; [now left|].
        destruct (String.eqb k k0) eqn:Ek.
        -- apply String.eqb_eq in Ek. now left.
        -- right. split; auto. intros Hin'.
           apply in_app_or in Hin'. destruct Hin' as [Hin'|[Heq|[]]]; auto.
           subst. rewrite String.eqb_refl in Ek. discriminate.
Qed.

Lemma dict_mem_existsb {A : Type} (d : list (string * A)) (key : string) :
  dict_mem d key = existsb (String.eqb key) (keys d).
Proof.
  unfold dict_mem. induction d as [|[k v] d IH]; simpl; [reflexivity|].
  rewrite (String.eqb_sym key k).
  destruct (String.eqb k key); simpl; auto.
Qed.

(** ** More on the extractor *)

Lemma keys_update_default (ds : dict) (kv : string * json) :
  keys (update_default ds kv)
  = if existsb (String.eqb (fst kv)) (keys ds) then keys ds
    else keys ds ++ [fst kv].
Proof.
  destruct kv as [k v]. cbn [fst]. unfold update_default.
  rewrite <- dict_mem_existsb.
  destruct (in_fields k array_fields && negb (is_list v));
    [destruct (truthy v)|]; apply keys_dict_set.
Qed.

Lemma fold_update_default_keys (entries : dict) :
  forall ds,
    keys_extended (keys ds) (keys entries)
      (keys (fold_left update_default entries ds)).
Proof.
  induction entries as [|kv rest IH]; intros ds.
  - apply keys_extended_nil.
  - cbn [fold_left]. change (keys (kv :: rest)) with (fst kv :: keys rest).
    eapply keys_extended_step; [|apply IH].
    apply keys_update_default.
Qed.

Lemma update_default_lists (ds : dict) (kv : string * json) :
  all_lists array_fields ds -> all_lists array_fields (update_default ds kv).
Proof.
  intros H key Hkey. destruct kv as [k v].
  destruct (String.eqb k key) eqn:E.
  - apply String.eqb_eq in E. subst k. unfold update_default.
    rewrite (in_fields_In _ _ Hkey). cbn [andb].
    destruct (is_list v) eqn:Ev; cbn [negb].
    + destruct v; try discriminate. eexists. apply dict_get_set_same.
    + destruct (truthy v); eexists; apply dict_get_set_same.
  - rewrite update_default_other; auto.
    cbn [fst]. intros ->. rewrite String.eqb_refl in E. discriminate.
Qed.

Lemma default_structure_lists : all_lists array_fields default_structure.
Proof.
  intros key Hkey. simpl in Hkey.
  repeat (destruct Hkey as [<-|Hkey]; [eexists; reflexivity|]).
  contradiction.
Qed.

Lemma fold_update_default_lists (entries : dict) :
  forall ds, all_lists array_fields ds ->
             all_lists array_fields (fold_left update_default entries ds).
Proof.
  induction entries as [|kv rest IH]; intros ds H; cbn [fold_left]; auto.
  apply IH. now apply update_default_lists.
Qed.

Lemma fold_update_default_same (entries : dict) (ds : dict) key value :
  NoDup (keys entries) ->
  In (key, value) entries ->
  dict_get (fold_left update_default entries ds) key
  = dict_get (update_default ds (key, value)) key.
Proof.
  revert ds. induction entries as [|[k v] rest IH]; intros ds Hnd Hin;
    [contradiction|].
  inversion Hnd as [|? ? Hk Hrest]; subst. cbn [fold_left].
  destruct Hin as [Heq|Hin].
  - injection Heq as -> ->. now apply fold_update_default_other.
  - rewrite IH by auto.
    assert (Hne : k <> key).
    { intros ->. apply Hk. eapply In_keys; eauto. }
    unfold update_default at 1 3.
    destruct (in_fields key array_fields && negb (is_list value));
      [destruct (truthy value)|];
      rewrite !dict_get_set_same; reflexivity.
Qed.

Section Extractor.

Variable oracle : string -> Z -> Z -> result string.
Variable json_loads : string -> option json.

(** Whatever object the reply decodes to, the record returned holds the
    fields of the schema first, in the order of the schema, and after them
    the keys of the reply that the schema does not have, each once. *)
Theorem process_chunk_schema_complete
    (chunk : string) (chunk_num total_chunks : Z)
    (content : string) (entries : dict) :
  oracle chunk chunk_num total_chunks = Ok content ->
  json_loads content = Some (JDict entries) ->
  exists record,
    _process_chunk oracle json_loads chunk chunk_num total_chunks = Ok record /\
    keys_extended (keys schema) (keys entries) (keys record) /\
    NoDup (keys record).
Proof.
  intros Horacle Hloads.
  exists (fold_left update_default entries default_structure). split.
  - unfold _process_chunk. rewrite Horacle. simpl. now rewrite Hloads.
  - assert (H := fold_update_default_keys entries default_structure).
    change (keys default_structure) with (keys schema) in H.
    split; [exact H|].
    destruct H as (extra & -> & Hnd & Hiff).
    apply NoDup_app; auto.
    + unfold schema, keys. simpl.
      repeat (apply NoDup_cons; [simpl; intuition discriminate|]).
      apply NoDup_nil.
    + intros k Hk Hin. apply Hiff in Hin. tauto.
Qed.

(** Whatever object the reply decodes to, every field listed in
    [array_fields] holds a list in the record returned. *)
Theorem process_chunk_array_fields_are_lists
    (chunk : string) (chunk_num total_chunks : Z)
    (content : string) (entries : dict) :
  oracle chunk chunk_num total_chunks = Ok content ->
  json_loads content = Some (JDict entries) ->
  exists record,
    _process_chunk oracle json_loads chunk chunk_num total_chunks = Ok record /\
    forall key, In key array_fields ->
                exists items, dict_get record key = Some (JList items).
Proof.
  intros Horacle Hloads.
  exists (fold_left update_default entries default_structure). split.
  - unfold _process_chunk. rewrite Horacle. simpl. now rewrite Hloads.
  - apply fold_update_default_lists, default_structure_lists.
Qed.

(** The record returned, field by field: a key the reply does not hold
    keeps the default (and is absent if the schema does not have it); a key
    the reply holds is bound to the decoded value as it is, except that a
    non-list value of a field of [array_fields] is wrapped or emptied. *)
Theorem process_chunk_field
    (chunk : string) (chunk_num total_chunks : Z)
    (content : string) (entries : dict) (key : string) :
  oracle chunk chunk_num total_chunks = Ok content ->
  json_loads content = Some (JDict entries) ->
  NoDup (keys entries) ->
  exists record,
    _process_chunk oracle json_loads chunk chunk_num total_chunks = Ok record /\
    dict_get record key
    = match dict_get entries key with
      | None => dict_get default_structure key
      | Some value =>
          if in_fields key array_fields && negb (is_list value)
          then Some (JList (if truthy value then [value] else []))
          else Some value
      end.
Proof.
  intros Horacle Hloads Hnd.
  exists (fold_left update_default entries default_structure). split.
  - unfold _process_chunk. rewrite Horacle. simpl. now rewrite Hloads.
  - destruct (dict_get entries key) as [value|] eqn:Hget.
    + apply dict_get_In in Hget.
      rewrite (fold_update_default_same entries _ key value Hnd Hget).
      unfold update_default.
      destruct (in_fields key array_fields && negb (is_list value));
        [destruct (truthy value)|]; apply dict_get_set_same.
    + apply fold_update_default_other. intros Hin.
      apply dict_mem_In in Hin. unfold dict_mem in Hin.
      rewrite Hget in Hin. discriminate.
Qed.

End Extractor.

(** ** The merger: keys, failures, repeated merges *)

Section MergeMore.

Variable set_order : list json -> list json.

Lemma keys_merge_entry (base b : dict) (kv : string * json) :
  merge_entry set_order base kv = Ok b ->
  keys b = if existsb (String.eqb (fst kv)) (keys base) then keys base
           else keys base ++ [fst kv].
Proof.
  destruct kv as [k v]. cbn [fst]. rewrite <- dict_mem_existsb.
  unfold merge_entry, dict_mem.
  destruct (dict_get base k) as [cur|] eqn:Hget.
  - assert (Hmem : forall w, keys (dict_set base k w) = keys base).
    { intros w. rewrite keys_dict_set. unfold dict_mem. now rewrite Hget. }
    assert (Hmem1 : forall w,
               keys (dict_set (if is_list cur then base
                               else dict_set base k (JList [])) k w)
               = keys base).
    { intros w. rewrite keys_dict_set. unfold dict_mem.
      destruct (is_list cur).
      - now rewrite Hget.
      - now rewrite dict_get_set_same, Hmem. }
    destruct v as [ |b0|n|q|s|items|entries].
    1-5, 7:
      simpl;
      repeat (match goal with
              | |- context [if ?c then _ else _] => destruct c; simpl
              end);
      intros [= <-]; auto.
    destruct items as [|first rest].
    + intros [= <-]. destruct (is_list cur); auto.
    + destruct (is_dict first).
      * intros [= <-]. apply Hmem1.
      * destruct (list_of_set set_order _) as [merged|e]; simpl;
          [|discriminate].
        intros [= <-]. apply Hmem1.
  - intros [= <-]. rewrite keys_dict_set. unfold dict_mem. now rewrite Hget.
Qed.

Lemma keys_merge_loop (new : dict) :
  forall base base',
    merge_loop set_order base new = Ok base' ->
    keys_extended (keys base) (keys new) (keys base').
Proof.
  induction new as [|kv rest IH]; intros base base' Hrun;
    cbn [merge_loop] in Hrun.
  - injection Hrun as <-. apply keys_extended_nil.
  - apply bind_Ok_inv in Hrun. destruct Hrun as (b & Hentry & Hrun).
    change (keys (kv :: rest)) with (fst kv :: keys rest).
    eapply keys_extended_step; [|apply (IH b base' Hrun)].
    now apply keys_merge_entry.
Qed.

(** The merge never removes a field and never moves one: the keys of the
    accumulated record stay where they are, and the keys that only the
    incoming record has are added after them, each once. *)
Theorem merge_keeps_keys (base new base' : dict) :
  merge_loop set_order base new = Ok base' ->
  keys_extended (keys base) (keys new) (keys base').
Proof. apply keys_merge_loop. Qed.

(** A field the accumulated record does not have is copied from the
    incoming record as it is, whatever its value. *)
Theorem merge_copies_unknown_key
    (base new base' : dict) (key : string) (value : json) :
  NoDup (keys new) ->
  dict_get base key = None ->
  In (key, value) new ->
  merge_loop set_order base new = Ok base' ->
  dict_get base' key = Some value.
Proof.
  intros Hnd Hnone Hin Hrun.
  destruct (merge_loop_field set_order new base base' key value Hnd Hin Hrun)
    as (r & Hr & Hget).
  rewrite Hnone in Hr. simpl in Hr. now injection Hr as <-.
Qed.

(** A field the incoming record does not have keeps its value. *)
Theorem merge_leaves_other_fields
    (base new base' : dict) (key : string) :
  dict_get new key = None ->
  merge_loop set_order base new = Ok base' ->
  dict_get base' key = dict_get base key.
Proof.
  intros Hnone Hrun. apply merge_loop_absent with (new := new) (set_order := set_order); auto.
  intros Hin. apply dict_mem_In in Hin. unfold dict_mem in Hin.
  rewrite Hnone in Hin. discriminate.
Qed.

Lemma merged_value_error (cur : option json) (value : json) (e : exn) :
  merged_value set_order cur value = Err e ->
  e = TypeError /\
  exists c first rest,
    cur = Some c /\ value = JList (first :: rest) /\ is_dict first = false /\
    forallb hashable
      (match c with JList l => l | _ => [] end ++ first :: rest) = false.
Proof.
  unfold merged_value. destruct cur as [c|]; [|discriminate].
  destruct value as [ |b0|n|q|s|items|entries];
    try (repeat (match goal with
                 | |- context [if ?c then _ else _] => destruct c; simpl
                 end); discriminate).
  destruct items as [|first rest]; [discriminate|].
  destruct (is_dict first) eqn:Ed; [discriminate|].
  unfold list_of_set.
  destruct (forallb hashable _) eqn:Eh; simpl; [discriminate|].
  intros [= <-]. split; auto. exists c, first, rest. auto.
Qed.

Lemma merge_entry_error (base : dict) (key : string) (value : json) (e : exn) :
  merge_entry set_order base (key, value) = Err e ->
  merged_value set_order (dict_get base key) value = Err e.
Proof.
  intros H. assert (Hv := merge_entry_value set_order base key value).
  now rewrite H in Hv.
Qed.

Lemma merge_loop_error (new : dict) :
  forall (base : dict) (e : exn),
    merge_loop set_order base new = Err e ->
    e = TypeError /\
    exists key first rest,
      In (key, JList (first :: rest)) new /\ is_dict first = false.
Proof.
  induction new as [|[k v] rest IH]; intros base e Hrun;
    cbn [merge_loop] in Hrun; [discriminate|].
  destruct (merge_entry set_order base (k, v)) as [b|e0] eqn:Hentry;
    cbn [bind] in Hrun.
  - destruct (IH b e Hrun) as (He & key & first & rest' & Hin & Hd).
    split; auto. exists key, first, rest'. split; auto. now right.
  - injection Hrun as <-. apply merge_entry_error in Hentry.
    apply merged_value_error in Hentry.
    destruct Hentry as (He & c & first & rest' & _ & -> & Hd & _).
    split; auto. exists k, first, rest'. split; auto. now left.
Qed.

(** The merge can fail in one way only: with [TypeError], on an incoming
    list that does not start with a sub-record. *)
Theorem merge_fails_only_with_type_error (base new : dict) (e : exn) :
  merge_loop set_order base new = Err e ->
  e = TypeError /\
  exists key first rest,
    In (key, JList (first :: rest)) new /\ is_dict first = false.
Proof. apply merge_loop_error. Qed.

(** If the body of the loop raises on the entry of [key] when run on the
    record as it is before the call, the whole loop raises. *)
Lemma merge_loop_field_error (new : dict) :
  forall (base : dict) (key : string) (value : json) (e : exn),
    NoDup (keys new) ->
    In (key, value) new ->
    merged_value set_order (dict_get base key) value = Err e ->
    merge_loop set_order base new = Err TypeError.
Proof.
  induction new as [|[k v] rest IH]; intros base key value e Hnd Hin Herr;
    [contradiction|].
  inversion Hnd as [|? ? Hk Hrest]; subst. cbn [merge_loop].
  destruct (merge_entry set_order base (k, v)) as [b|e0] eqn:Hentry;
    cbn [bind].
  - destruct Hin as [Heq|Hin].
    + injection Heq as -> ->.
      assert (H := merge_entry_value set_order base key value).
      rewrite Hentry in H. destruct H as (r & Hr & _). congruence.
    + apply (IH b key value e); auto.
      rewrite (merge_entry_other set_order _ _ _ key Hentry); auto.
      simpl. intros ->. apply Hk. eapply In_keys; eauto.
  - apply merge_entry_error in Hentry. apply merged_value_error in Hentry.
    destruct Hentry as [-> _]. reflexivity.
Qed.

(** Merging a list that starts with a scalar into an accumulated list
    raises [TypeError] as soon as one element of either list is a list or a
    dictionary: [set] cannot hash it.  This is what happens when the
    accumulated [arms] hold a sub-record and the incoming [arms] is a
    one-string list. *)
Theorem merge_unhashable_raises
    (base new : dict) (key : string) (xs : list json)
    (first : json) (rest : list json) :
  NoDup (keys new) ->
  dict_get base key = Some (JList xs) ->
  In (key, JList (first :: rest)) new ->
  is_dict first = false ->
  forallb hashable (xs ++ first :: rest) = false ->
  merge_loop set_order base new = Err TypeError.
Proof.
  intros Hnd Hget Hin Hfirst Hhash.
  apply (merge_loop_field_error new base key (JList (first :: rest)) TypeError);
    auto.
  rewrite Hget. simpl. rewrite Hfirst. unfold list_of_set.
  now rewrite Hhash.
Qed.

Lemma merged_value_subrecords (xs : list json) (d : dict) (rest : list json) :
  merged_value set_order (Some (JList xs)) (JList (JDict d :: rest))
  = Ok (JList (append_new xs (JDict d :: rest))).
Proof. reflexivity. Qed.

Lemma append_new_present (items acc : list json) :
  (forall x, In x items -> py_in x acc = true) ->
  append_new acc items = acc.
Proof.
  induction items as [|x items IH]; intros H; simpl; [reflexivity|].
  rewrite (H x (or_introl eq_refl)). apply IH.
  intros y Hy. apply H. now right.
Qed.

(** Merging the same list of sub-records a second time changes nothing in
    the field. *)
Theorem merge_subrecords_twice
    (base new base' base'' : dict) (key : string) (xs : list json)
    (d : dict) (rest : list json) :
  NoDup (keys new) ->
  dict_get base key = Some (JList xs) ->
  In (key, JList (JDict d :: rest)) new ->
  Forall wf_json xs ->
  Forall wf_json (JDict d :: rest) ->
  merge_loop set_order base new = Ok base' ->
  merge_loop set_order base' new = Ok base'' ->
  dict_get base'' key = dict_get base' key.
Proof.
  intros Hnd Hget Hin Hxs Hitems Hrun Hrun'.
  destruct (merge_loop_field set_order new base base' key _ Hnd Hin Hrun)
    as (r & Hr & Hget').
  rewrite Hget, merged_value_subrecords in Hr. apply Ok_inj in Hr. subst r.
  destruct (merge_loop_field set_order new base' base'' key _ Hnd Hin Hrun')
    as (r' & Hr' & Hget'').
  rewrite Hget', merged_value_subrecords in Hr'. apply Ok_inj in Hr'.
  subst r'. rewrite Hget'', Hget'. do 2 f_equal.
  apply append_new_present. intros x Hx.
  rewrite py_in_append_new; auto.
  - rewrite (In_py_in x (JDict d :: rest)); [apply orb_true_r| |exact Hx].
    rewrite Forall_forall in Hitems. now apply Hitems.
  - rewrite Forall_forall in Hitems. now apply Hitems.
Qed.

Lemma merge_loop_succeeds (new : dict) :
  forall base : dict,
    NoDup (keys new) ->
    (forall key value,
        In (key, value) new ->
        exists r, merged_value set_order (dict_get base key) value = Ok r) ->
    exists base', merge_loop set_order base new = Ok base'.
Proof.
  induction new as [|[k v] rest IH]; intros base Hnd Hok; cbn [merge_loop].
  - eauto.
  - inversion Hnd as [|? ? Hk Hrest]; subst.
    assert (H := merge_entry_value set_order base k v).
    destruct (merge_entry set_order base (k, v)) as [b|e].
    + cbn [bind]. destruct H as (r & _ & _ & Hother).
      apply IH; [exact Hrest|].
      intros key value Hin. rewrite Hother.
      * apply Hok. now right.
      * intros ->. apply Hk. apply (in_map fst) in Hin. exact Hin.
    + destruct (Hok k v (or_introl eq_refl)) as (r & Hr). congruence.
Qed.

(** The merge returns normally whenever every incoming list that starts
    with a scalar holds hashable values only (strings, numbers, booleans,
    null) and is merged into a field that is absent, is not a list, or is a
    list of hashable values.  Lists of sub-records, strings, numbers and
    other values never make it fail. *)
Theorem merge_succeeds (base new : dict) :
  NoDup (keys new) ->
  (forall key first rest,
      In (key, JList (first :: rest)) new ->
      is_dict first = false ->
      forallb hashable (first :: rest) = true /\
      forall xs, dict_get base key = Some (JList xs) ->
                 forallb hashable xs = true) ->
  exists base', merge_loop set_order base new = Ok base'.
Proof.
  intros Hnd Hhash. apply merge_loop_succeeds; [exact Hnd|].
  intros key value Hin. unfold merged_value.
  destruct (dict_get base key) as [c|] eqn:Hget; [|eauto].
  destruct value as [| | | | |items|]; try solve [eauto];
    try solve [repeat match goal with
                      | |- context [if ?b then _ else _] => destruct b
                      end; eauto].
  destruct items as [|first rest]; [eauto|].
  destruct (is_dict first) eqn:Hfirst; [eauto|].
  destruct (Hhash key first rest Hin Hfirst) as [Hys Hxs].
  unfold list_of_set.
  assert (Hall : forallb hashable
                   (match c with JList l => l | _ => [] end ++ first :: rest)
                 = true).
  { rewrite forallb_app, Hys, andb_true_r.
    destruct c; try reflexivity. now apply Hxs. }
  rewrite Hall. cbn [bind]. eauto.
Qed.


Lemma merge_entry_into_empty_list (key : string) (items : list json) :
  merge_entry set_order [(key, JList [])] (key, JList items)
  = r <- merged_value set_order (Some (JList [])) (JList items) ;;
    Ok [(key, r)].
Proof.
  unfold merge_entry, merged_value. cbn [dict_get].
  rewrite String.eqb_refl. cbn [is_list].
  destruct items as [|first rest]; [reflexivity|].
  destruct (is_dict first).
  - cbn [bind dict_set]. now rewrite String.eqb_refl.
  - destruct (list_of_set set_order ([] ++ first :: rest)) as [m|e];
      cbn [bind dict_set]; [now rewrite String.eqb_refl | reflexivity].
Qed.

(** An incoming list replaces an accumulated value that is not a list: the
    field ends up exactly as it does when the list is merged into a record
    that holds the empty list there, and the old value is gone even when
    the incoming list is empty. *)
Theorem merge_list_replaces_non_list
    (base new base' : dict) (key : string) (cur : json) (items : list json) :
  NoDup (keys new) ->
  dict_get base key = Some cur ->
  is_list cur = false ->
  In (key, JList items) new ->
  merge_loop set_order base new = Ok base' ->
  exists zs,
    dict_get base' key = Some (JList zs) /\
    merge_entry set_order [(key, JList [])] (key, JList items)
    = Ok [(key, JList zs)] /\
    (items = [] -> zs = []).
Proof.
  intros Hnd Hget Hcur Hin Hrun.
  destruct (merge_loop_field set_order new base base' key _ Hnd Hin Hrun)
    as (r & Hr & Hget').
  rewrite Hget in Hr.
  assert (Hsame : merged_value set_order (Some cur) (JList items)
                  = merged_value set_order (Some (JList [])) (JList items)).
  { destruct cur; try discriminate; reflexivity. }
  rewrite Hsame in Hr.
  assert (Hlist : exists zs, r = JList zs /\ (items = [] -> zs = [])).
  { cbn [merged_value] in Hr. destruct items as [|first rest].
    - apply Ok_inj in Hr. subst r. eauto.
    - destruct (is_dict first).
      + apply Ok_inj in Hr. subst r.
        eexists. split; [reflexivity | discriminate].
      + destruct (list_of_set set_order ([] ++ first :: rest)) as [m|e];
          cbn [bind] in Hr; [|discriminate].
        apply Ok_inj in Hr. subst r.
        eexists. split; [reflexivity | discriminate]. }
  destruct Hlist as (zs & -> & Hzs). exists zs.
  split; [exact Hget'|]. split; [|exact Hzs].
  rewrite merge_entry_into_empty_list, Hr. reflexivity.
Qed.

End MergeMore.

(** ** The driver: the record handed to validation *)

Lemma keys_extended_prefix (ks incoming ks' prefix rest : list string) :
  ks = prefix ++ rest ->
  keys_extended ks incoming ks' ->
  exists extra, ks' = prefix ++ extra.
Proof.
  intros -> (extra & -> & _). exists (rest ++ extra). now rewrite app_assoc.
Qed.

Lemma keys_extended_NoDup (ks incoming ks' : list string) :
  NoDup ks -> keys_extended ks incoming ks' -> NoDup ks'.
Proof.
  intros Hnd (extra & -> & Hextra & Hiff).
  apply NoDup_app; auto.
  intros k Hk Hin. apply Hiff in Hin. tauto.
Qed.

Lemma NoDup_keys_schema : NoDup (keys schema).
Proof.
  unfold schema, keys. simpl.
  repeat (apply NoDup_cons; [simpl; intuition discriminate|]).
  apply NoDup_nil.
Qed.

Lemma process_parsed_complete (entries record : dict) :
  process_parsed (JDict entries) = Ok record -> record_complete record.
Proof.
  intros H. apply Ok_inj in H. subst record.
  assert (Hk := fold_update_default_keys entries default_structure).
  change (keys default_structure) with (keys schema) in Hk.
  split; [|split].
  - eapply keys_extended_NoDup; [apply NoDup_keys_schema | exact Hk].
  - destruct Hk as (extra & -> & _). eauto.
  - apply fold_update_default_lists, default_structure_lists.
Qed.

Section DriverMore.

Variable set_order : list json -> list json.
Variable read_pdf : string -> result string.
Variable oracle : string -> Z -> Z -> result string.
Variable json_loads : string -> option json.
Variable ProtocolSynopsis : Type.
Variable validate : dict -> result ProtocolSynopsis.

Lemma process_chunk_complete chunk i total record :
  _process_chunk oracle json_loads chunk i total = Ok record ->
  record_complete record.
Proof.
  unfold _process_chunk. intros H. apply bind_Ok_inv in H.
  destruct H as (content & _ & H).
  destruct (json_loads content) as [parsed|]; [|discriminate].
  destruct parsed; try discriminate.
  now apply process_parsed_complete in H.
Qed.

Lemma merge_loop_complete (base new base' : dict) :
  record_complete base -> record_complete new ->
  merge_loop set_order base new = Ok base' ->
  record_complete base'.
Proof.
  intros (Hnd & (extra & Hkeys) & Hlists) (Hnd' & _ & Hlists') Hrun.
  assert (Hk := keys_merge_loop set_order new base base' Hrun).
  split; [|split].
  - apply (keys_extended_NoDup (keys base) (keys new) (keys base') Hnd Hk).
  - apply (keys_extended_prefix (keys base) (keys new) (keys base')
             (keys schema) extra Hkeys Hk).
  - intros key Hkey.
    destruct (Hlists key Hkey) as (xs & Hxs).
    destruct (Hlists' key Hkey) as (items & Hitems).
    assert (H := merge_loop_get set_order new base base' key Hnd' Hrun).
    rewrite Hitems, Hxs in H. destruct H as (r & Hr & Hget).
    rewrite Hget. cbn [merged_value] in Hr.
    destruct items as [|first rest].
    + apply Ok_inj in Hr. subst r. eauto.
    + destruct (is_dict first).
      * apply Ok_inj in Hr. subst r. eauto.
      * destruct (list_of_set set_order (xs ++ first :: rest)) as [m|e];
          cbn [bind] in Hr; [|discriminate].
        apply Ok_inj in Hr. subst r. eauto.
Qed.

Lemma record_complete_nonempty (d : dict) : record_complete d -> d <> [].
Proof.
  intros (_ & (extra & Hkeys) & _) ->. discriminate.
Qed.

Lemma process_chunks_complete (todo : list string) :
  forall i total extracted_info log log' r,
    match extracted_info with
    | Some d => record_complete d
    | None => True
    end ->
    process_chunks set_order oracle json_loads todo i total extracted_info log
    = (log', Ok r) ->
    match r with
    | Some d => record_complete d
    | None => todo = [] /\ extracted_info = None
    end.
Proof.
  induction todo as [|chunk rest IH]; intros i total ex log log' r Hex Hrun;
    cbn [process_chunks] in Hrun.
  - injection Hrun as _ <-. destruct ex; auto.
  - destruct (_process_chunk oracle json_loads chunk i total)
      as [info|e] eqn:Hinfo; [|discriminate].
    apply process_chunk_complete in Hinfo.
    destruct ex as [acc|].
    + destruct (_merge_info set_order (Some acc) info) as [ex'|e] eqn:Hm;
        [|discriminate].
      assert (Hex' : exists merged,
                 ex' = Some merged /\ record_complete merged).
      { unfold _merge_info in Hm.
        destruct acc as [|e0 acc]; [now apply record_complete_nonempty in Hex|].
        apply bind_Ok_inv in Hm. destruct Hm as (merged & Hm & Hret).
        apply Ok_inj in Hret. subst ex'. exists merged. split; auto.
        exact (merge_loop_complete (e0 :: acc) info merged Hex Hinfo Hm). }
      destruct Hex' as (merged & -> & Hmerged).
      specialize (IH (i + 1)%Z total (Some merged) _ _ _ Hmerged Hrun).
      destruct r; auto. destruct IH as [_ Habs]. discriminate.
    + specialize (IH (i + 1)%Z total (Some info) _ _ _ Hinfo Hrun).
      destruct r; auto. destruct IH as [_ Habs]. discriminate.
Qed.

(** When [generate_synopsis] returns a synopsis, the record it handed to
    the [ProtocolSynopsis] constructor has distinct keys, starts with the
    fields of the schema in schema order, and holds a list in every field of
    [array_fields]: no field is missing, however many chunks were merged. *)
Theorem generate_synopsis_record_complete
    (pdf_path : string) (log : list Z) (synopsis : ProtocolSynopsis) :
  generate_synopsis set_order read_pdf oracle json_loads
    ProtocolSynopsis validate pdf_path = (log, Ok synopsis) ->
  exists record,
    validate record = Ok synopsis /\
    NoDup (keys record) /\
    (exists extra, keys record = keys schema ++ extra) /\
    (forall key, In key array_fields ->
                 exists items, dict_get record key = Some (JList items)).
Proof.
  unfold generate_synopsis.
  destruct (read_pdf pdf_path) as [text|e]; [|discriminate].
  destruct (process_chunks set_order oracle json_loads
              (_chunk_text text default_max_chunk_size) 1
              (Z.of_nat (List.length (_chunk_text text default_max_chunk_size)))
              None []) as [log0 [r|e]] eqn:Hrun; [|discriminate].
  destruct r as [record|]; [|discriminate].
  intros H. injection H as _ Hval.
  apply process_chunks_complete in Hrun; [|exact I].
  destruct Hrun as (Hnd & Hkeys & Hlists).
  exists record. auto.
Qed.

Lemma process_chunks_log (todo : list string) :
  forall i total extracted_info log,
  exists k,
    (k <= List.length todo)%nat /\
    fst (process_chunks set_order oracle json_loads todo i total
           extracted_info log) = log ++ zseq i k /\
    (forall r,
        snd (process_chunks set_order oracle json_loads todo i total
               extracted_info log) = Ok r ->
        k = List.length todo).
Proof.
  induction todo as [|chunk rest IH]; intros i total ex log;
    cbn [process_chunks].
  - exists 0%nat. simpl. rewrite app_nil_r. auto.
  - assert (Hstop : forall e : exn,
               exists k,
                 (k <= List.length (chunk :: rest))%nat /\
                 fst (log ++ [i], @Err (option dict) e) = log ++ zseq i k /\
                 (forall r, snd (log ++ [i], @Err (option dict) e) = Ok r ->
                            k = List.length (chunk :: rest))).
    { intros e. exists 1%nat. simpl. split; [lia|]. split; [reflexivity|].
      discriminate. }
    assert (Hgo : forall ex',
               exists k,
                 (k <= List.length (chunk :: rest))%nat /\
                 fst (process_chunks set_order oracle json_loads rest
                        (i + 1) total ex' (log ++ [i])) = log ++ zseq i k /\
                 (forall r,
                     snd (process_chunks set_order oracle json_loads rest
                            (i + 1) total ex' (log ++ [i])) = Ok r ->
                     k = List.length (chunk :: rest))).
    { intros ex'. destruct (IH (i + 1)%Z total ex' (log ++ [i]))
        as (k & Hk & Hlog & Hok).
      exists (S k). simpl. split; [lia|]. split.
      - rewrite Hlog, <- app_assoc. reflexivity.
      - intros r Hr. f_equal. eauto. }
    destruct (_process_chunk oracle json_loads chunk i total) as [info|e];
      [|apply Hstop].
    destruct ex as [acc|]; [|apply Hgo].
    destruct (_merge_info set_order (Some acc) info) as [ex'|e];
      [apply Hgo | apply Hstop].
Qed.

(** In every run the oracle is called for chunk 1, then chunk 2, and so on
    without a gap or a repeat, up to the chunk where the run stops; a run
    that returns a synopsis has called it exactly once for every chunk.
    When the document cannot be read the oracle is not called at all. *)
Theorem generate_synopsis_oracle_calls (pdf_path : string) :
  exists k,
    fst (generate_synopsis set_order read_pdf oracle json_loads
           ProtocolSynopsis validate pdf_path) = zseq 1 k /\
    match read_pdf pdf_path with
    | Err _ => k = 0%nat
    | Ok full_text =>
        (k <= List.length (_chunk_text full_text default_max_chunk_size))%nat /\
        (forall synopsis,
            snd (generate_synopsis set_order read_pdf oracle json_loads
                   ProtocolSynopsis validate pdf_path) = Ok synopsis ->
            k = List.length (_chunk_text full_text default_max_chunk_size))
    end.
Proof.
  unfold generate_synopsis.
  destruct (read_pdf pdf_path) as [text|e].
  - destruct (process_chunks_log (_chunk_text text default_max_chunk_size) 1
                (Z.of_nat (List.length
                             (_chunk_text text default_max_chunk_size)))
                None []) as (k & Hk & Hlog & Hok).
    exists k.
    destruct (process_chunks set_order oracle json_loads
                (_chunk_text text default_max_chunk_size) 1
                (Z.of_nat (List.length
                             (_chunk_text text default_max_chunk_size)))
                None []) as [log0 [r|e]] eqn:Hrun.
    + cbn [fst snd] in Hlog, Hok. specialize (Hok r eq_refl).
      destruct r as [record|]; cbn [fst snd]; repeat split; auto.
    + cbn [fst snd] in *. repeat split; auto. discriminate.
  - exists 0%nat. simpl. auto.
Qed.

(** A document of at most 100000 characters is processed as one chunk: the
    oracle is called once, on the whole text with newlines replaced by spaces
    and a period added, numbered 1 of 1, and the record of that chunk goes to
    the [ProtocolSynopsis] constructor as it is, without any merge. *)
Theorem generate_synopsis_short_document (pdf_path full_text : string) :
  read_pdf pdf_path = Ok full_text ->
  (len full_text <= 100000)%Z ->
  generate_synopsis set_order read_pdf oracle json_loads
    ProtocolSynopsis validate pdf_path
  = ([1%Z],
     record <- _process_chunk oracle json_loads
                 (replace_newlines full_text ++ ".")%string 1 1 ;;
     validate record).
Proof.
  intros Hread Hlen. unfold generate_synopsis. rewrite Hread.
  rewrite (chunk_text_one_chunk full_text default_max_chunk_size Hlen).
  cbn [process_chunks List.length Z.of_nat app].
  change (Z.pos (Pos.of_succ_nat 0)) with 1%Z.
  destruct (_process_chunk oracle json_loads
              (replace_newlines full_text ++ ".")%string 1 1);
    reflexivity.
Qed.

End DriverMore.

(** ** The Word renderer *)

Lemma bullet_texts_app (a b : list block) :
  bullet_texts (a ++ b) = bullet_texts a ++ bullet_texts b.
Proof. apply flat_map_app. Qed.

Lemma bullet_texts_bullets (items : list string) :
  bullet_texts (bullets items) = items.
Proof.
  induction items as [|item rest IH]; [reflexivity|].
  simpl. f_equal. exact IH.
Qed.

Lemma bullet_texts_subsection (title : string) (items : list string) :
  bullet_texts (subsection title items) = items.
Proof. apply bullet_texts_bullets. Qed.

Lemma bullet_texts_optional_subsection
    (title : string) (items : option (list string)) :
  bullet_texts (optional_subsection title items) = opt_items items.
Proof.
  destruct items as [[|item rest]|]; try reflexivity.
  apply bullet_texts_subsection.
Qed.

Lemma bullet_texts_line_if_truthy (label value : string) :
  bullet_texts (line_if_truthy label value) = [].
Proof. unfold line_if_truthy. now destruct (str_truthy value). Qed.

Lemma bullet_texts_optional_line (label : string) (value : option string) :
  bullet_texts (optional_line label value) = [].
Proof.
  destruct value as [s|]; [apply bullet_texts_line_if_truthy | reflexivity].
Qed.

(** The bulleted paragraphs of the document are the items of the list
    fields of the synopsis, field after field in the order of the document
    and item after item in the order of each list: no item is left out,
    repeated or moved, and an optional list that is [None] adds none. *)
Theorem save_to_word_bullets
    (timestamp : string) (synopsis : ProtocolSynopsis)
    (output_path : option string) :
  bullet_texts (snd (save_to_word timestamp synopsis output_path))
  = primary_objectives synopsis
    ++ secondary_objectives synopsis
    ++ opt_items (exploratory_objectives synopsis)
    ++ primary_endpoints synopsis
    ++ secondary_endpoints synopsis
    ++ opt_items (exploratory_endpoints synopsis)
    ++ inclusion_criteria synopsis
    ++ exclusion_criteria synopsis
    ++ efficacy_assessments synopsis
    ++ safety_assessments synopsis
    ++ opt_items (pharmacokinetic_assessments synopsis)
    ++ opt_items (immunogenicity_markers synopsis).
Proof.
  unfold save_to_word. cbn [snd].
  rewrite !bullet_texts_app, !bullet_texts_subsection,
    !bullet_texts_optional_subsection, !bullet_texts_optional_line,
    !bullet_texts_line_if_truthy.
  cbn. rewrite !app_nil_r. reflexivity.
Qed.

Lemma headings_app (a b : list block) :
  headings (a ++ b) = headings a ++ headings b.
Proof. apply flat_map_app. Qed.

Lemma headings_subsection (title : string) (items : list string) :
  headings (subsection title items) = [].
Proof.
  unfold subsection, bullets. simpl.
  induction items as [|item rest IH]; [reflexivity | exact IH].
Qed.

Lemma headings_optional_subsection
    (title : string) (items : option (list string)) :
  headings (optional_subsection title items) = [].
Proof.
  destruct items as [[|item rest]|]; try reflexivity.
  apply headings_subsection.
Qed.

Lemma headings_line_if_truthy (label value : string) :
  headings (line_if_truthy label value) = [].
Proof. unfold line_if_truthy. now destruct (str_truthy value). Qed.

Lemma headings_optional_line (label : string) (value : option string) :
  headings (optional_line label value) = [].
Proof.
  destruct value as [s|]; [apply headings_line_if_truthy | reflexivity].
Qed.

(** The headings of the document do not depend on the synopsis: the title
    at level 0 and the same ten section headings at level 1, in the same
    order, whatever the fields hold and whichever optional fields are
    missing. *)
Theorem save_to_word_sections
    (timestamp : string) (synopsis : ProtocolSynopsis)
    (output_path : option string) :
  headings (snd (save_to_word timestamp synopsis output_path))
  = [("PROTOCOL SYNOPSIS", 0%Z);
     ("Basic Study Information", 1%Z);
     ("Study Rationale", 1%Z);
     ("Objectives & Endpoints", 1%Z);
     ("Study Design", 1%Z);
     ("Population", 1%Z);
     ("Treatments", 1%Z);
     ("Assessments", 1%Z);
     ("Statistical Considerations", 1%Z);
     ("Ethics & Compliance", 1%Z);
     ("Timeline", 1%Z)].
Proof.
  unfold save_to_word. cbn [snd].
  rewrite !headings_app, !headings_subsection,
    !headings_optional_subsection, !headings_optional_line,
    !headings_line_if_truthy.
  reflexivity.
Qed.

Lemma tables_app (a b : list block) :
  tables (a ++ b) = tables a ++ tables b.
Proof. apply flat_map_app. Qed.

Lemma tables_subsection (title : string) (items : list string) :
  tables (subsection title items) = [].
Proof.
  unfold subsection, bullets. simpl.
  induction items as [|item rest IH]; [reflexivity | exact IH].
Qed.

Lemma tables_optional_subsection
    (title : string) (items : option (list string)) :
  tables (optional_subsection title items) = [].
Proof.
  destruct items as [[|item rest]|]; try reflexivity.
  apply tables_subsection.
Qed.

Lemma tables_line_if_truthy (label value : string) :
  tables (line_if_truthy label value) = [].
Proof. unfold line_if_truthy. now destruct (str_truthy value). Qed.

Lemma tables_optional_line (label : string) (value : option string) :
  tables (optional_line label value) = [].
Proof.
  destruct value as [s|]; [apply tables_line_if_truthy | reflexivity].
Qed.

(** The document holds two tables, the study arms with three columns and
    the dosages with four.  Each has its header row followed by one row per
    arm (per dosage), in the order of the list, so an empty list leaves the
    header alone; every row has as many cells as the table has columns. *)
Theorem save_to_word_tables
    (timestamp : string) (synopsis : ProtocolSynopsis)
    (output_path : option string) :
  let doc := snd (save_to_word timestamp synopsis output_path) in
  tables doc
  = [(3%Z, ["Arm Name"; "Treatment Description"; "Dosing Schedule"]
             :: map arm_row (arms synopsis));
     (4%Z, ["Drug Name"; "Dose"; "Frequency"; "Route of Administration"]
             :: map dosage_row (dosage_and_administration synopsis))] /\
  Forall (fun t : Z * list (list string) =>
            Forall (fun row => Z.of_nat (List.length row) = fst t) (snd t))
    (tables doc).
Proof.
  assert (E : tables (snd (save_to_word timestamp synopsis output_path))
              = [(3%Z, ["Arm Name"; "Treatment Description"; "Dosing Schedule"]
                         :: map arm_row (arms synopsis));
                 (4%Z, ["Drug Name"; "Dose"; "Frequency";
                        "Route of Administration"]
                         :: map dosage_row
                              (dosage_and_administration synopsis))]).
  { unfold save_to_word. cbn [snd].
    rewrite !tables_app, !tables_subsection,
      !tables_optional_subsection, !tables_optional_line,
      !tables_line_if_truthy.
    reflexivity. }
  cbv zeta. rewrite E. split; [reflexivity|].
  repeat apply Forall_cons; try apply Forall_nil; cbn [fst snd];
    try reflexivity.
  - apply Forall_forall. intros row Hin. apply in_map_iff in Hin.
    destruct Hin as (arm & <- & _). reflexivity.
  - apply Forall_forall. intros row Hin. apply in_map_iff in Hin.
    destruct Hin as (dosage & <- & _). reflexivity.
Qed.

Lemma subsection_titles_app (a b : list block) :
  subsection_titles (a ++ b) = subsection_titles a ++ subsection_titles b.
Proof. apply flat_map_app. Qed.

Lemma subsection_titles_subsection (title : string) (items : list string) :
  subsection_titles (subsection title items) = [title].
Proof.
  unfold subsection, bullets. simpl. f_equal.
  induction items as [|item rest IH]; [reflexivity | exact IH].
Qed.

Lemma subsection_titles_optional_subsection
    (title : string) (items : option (list string)) :
  subsection_titles (optional_subsection title items)
  = title_if_items title (opt_items items).
Proof.
  destruct items as [[|item rest]|]; try reflexivity.
  apply subsection_titles_subsection.
Qed.

Lemma subsection_titles_line_if_truthy (label value : string) :
  subsection_titles (line_if_truthy label value) = [].
Proof. unfold line_if_truthy. now destruct (str_truthy value). Qed.

Lemma subsection_titles_optional_line
    (label : string) (value : option string) :
  subsection_titles (optional_line label value) = [].
Proof.
  destruct value as [s|];
    [apply subsection_titles_line_if_truthy | reflexivity].
Qed.

(** The subsections of the document, that is its ['Heading 2']
    paragraphs: the thirteen that the code adds unconditionally are always
    printed, also when the list under them is empty; each of the four that
    belong to optional lists is printed exactly when the list holds an
    item, so [None] and the empty list give the same document outline. *)
Theorem save_to_word_subsections
    (timestamp : string) (synopsis : ProtocolSynopsis)
    (output_path : option string) :
  subsection_titles (snd (save_to_word timestamp synopsis output_path))
  = ["Background:"; "Mechanism of Action:";
     "Justification for Study Design:";
     "Primary Objectives:"; "Secondary Objectives:"]
    ++ title_if_items "Exploratory Objectives:"
         (opt_items (exploratory_objectives synopsis))
    ++ ["Primary Endpoints:"; "Secondary Endpoints:"]
    ++ title_if_items "Exploratory Endpoints:"
         (opt_items (exploratory_endpoints synopsis))
    ++ ["Study Arms:"; "Inclusion Criteria:"; "Exclusion Criteria:";
        "Dosage and Administration:";
        "Efficacy Assessments:"; "Safety Assessments:"]
    ++ title_if_items "Pharmacokinetic Assessments:"
         (opt_items (pharmacokinetic_assessments synopsis))
    ++ title_if_items "Immunogenicity Markers:"
         (opt_items (immunogenicity_markers synopsis)).
Proof.
  unfold save_to_word. cbn [snd].
  rewrite !subsection_titles_app, !subsection_titles_subsection,
    !subsection_titles_optional_subsection,
    !subsection_titles_optional_line, !subsection_titles_line_if_truthy.
  cbn [subsection_titles flat_map String.eqb Ascii.eqb Bool.eqb app].
  rewrite ?app_nil_r. reflexivity.
Qed.

(** ** Concrete runs *)

Lemma NoDup_keys_example_reply : NoDup (keys example_reply).
Proof.
  unfold example_reply, keys. simpl.
  repeat (apply NoDup_cons; [simpl; intuition discriminate|]).
  apply NoDup_nil.
Qed.

Lemma process_chunk_schema_complete_witness :
  exists record,
    _process_chunk (fun _ _ _ => Ok "reply")
      (fun _ => Some (JDict example_reply)) "ab. cd." 1 1 = Ok record /\
    keys_extended (keys schema) (keys example_reply) (keys record) /\
    NoDup (keys record).
Proof.
  apply (process_chunk_schema_complete
           (fun _ _ _ => Ok "reply") (fun _ => Some (JDict example_reply))
           "ab. cd." 1 1 "reply" example_reply);
    reflexivity.
Defined.

Lemma process_chunk_array_fields_are_lists_witness :
  exists record,
    _process_chunk (fun _ _ _ => Ok "reply")
      (fun _ => Some (JDict example_reply)) "ab. cd." 1 1 = Ok record /\
    forall key, In key array_fields ->
                exists items, dict_get record key = Some (JList items).
Proof.
  apply (process_chunk_array_fields_are_lists
           (fun _ _ _ => Ok "reply") (fun _ => Some (JDict example_reply))
           "ab. cd." 1 1 "reply" example_reply);
    reflexivity.
Defined.

Lemma process_chunk_field_witness :
  exists record,
    _process_chunk (fun _ _ _ => Ok "reply")
      (fun _ => Some (JDict example_reply)) "ab. cd." 1 1 = Ok record /\
    dict_get record "primary_objectives"
    = Some (JList [JStr "Assess safety"]).
Proof.
  apply (process_chunk_field
           (fun _ _ _ => Ok "reply") (fun _ => Some (JDict example_reply))
           "ab. cd." 1 1 "reply" example_reply "primary_objectives").
  - reflexivity.
  - reflexivity.
  - exact NoDup_keys_example_reply.
Defined.

Lemma merge_keeps_keys_witness :
  keys_extended
    (keys [("protocol_title", JStr "Study X"); ("sample_size", JInt 0)])
    (keys [("sample_size", JInt 120); ("notes", JStr "n/a")])
    (keys [("protocol_title", JStr "Study X"); ("sample_size", JInt 120);
           ("notes", JStr "n/a")]).
Proof.
  apply (merge_keeps_keys insertion_order
           [("protocol_title", JStr "Study X"); ("sample_size", JInt 0)]
           [("sample_size", JInt 120); ("notes", JStr "n/a")]
           [("protocol_title", JStr "Study X"); ("sample_size", JInt 120);
            ("notes", JStr "n/a")]).
  reflexivity.
Defined.

Lemma merge_copies_unknown_key_witness :
  dict_get [("protocol_title", JStr "Study X"); ("sample_size", JInt 120);
            ("notes", JStr "n/a")] "notes"
  = Some (JStr "n/a").
Proof.
  apply (merge_copies_unknown_key insertion_order
           [("protocol_title", JStr "Study X"); ("sample_size", JInt 0)]
           [("sample_size", JInt 120); ("notes", JStr "n/a")]
           [("protocol_title", JStr "Study X"); ("sample_size", JInt 120);
            ("notes", JStr "n/a")]
           "notes" (JStr "n/a")).
  - repeat (apply NoDup_cons; [simpl; intuition discriminate|]).
    apply NoDup_nil.
  - reflexivity.
  - simpl. tauto.
  - reflexivity.
Defined.

Lemma merge_leaves_other_fields_witness :
  dict_get [("protocol_title", JStr "Study X"); ("sample_size", JInt 120);
            ("notes", JStr "n/a")] "protocol_title"
  = dict_get [("protocol_title", JStr "Study X"); ("sample_size", JInt 0)]
      "protocol_title".
Proof.
  apply (merge_leaves_other_fields insertion_order
           [("protocol_title", JStr "Study X"); ("sample_size", JInt 0)]
           [("sample_size", JInt 120); ("notes", JStr "n/a")]
           [("protocol_title", JStr "Study X"); ("sample_size", JInt 120);
            ("notes", JStr "n/a")]
           "protocol_title");
    reflexivity.
Defined.

Lemma merge_fails_only_with_type_error_witness :
  TypeError = TypeError /\
  exists key first rest,
    In (key, JList (first :: rest)) [("arms", JList [JStr "Arm B"])] /\
    is_dict first = false.
Proof.
  apply (merge_fails_only_with_type_error insertion_order
           [("arms", JList [arm_A])] [("arms", JList [JStr "Arm B"])]
           TypeError).
  reflexivity.
Defined.

Lemma merge_unhashable_raises_witness :
  merge_loop insertion_order
    [("arms", JList [arm_A])] [("arms", JList [JStr "Arm B"])]
  = Err TypeError.
Proof.
  apply (merge_unhashable_raises insertion_order
           [("arms", JList [arm_A])] [("arms", JList [JStr "Arm B"])]
           "arms" [arm_A] (JStr "Arm B") []).
  - apply NoDup_cons; [simpl; tauto | apply NoDup_nil].
  - reflexivity.
  - simpl. now left.
  - reflexivity.
  - reflexivity.
Defined.

Lemma merge_succeeds_witness :
  exists base',
    merge_loop insertion_order
      [("arms", JList [arm_A]); ("primary_objectives", JList [JStr "A"])]
      [("arms", JList [arm_A]); ("primary_objectives", JList [JStr "B"])]
    = Ok base'.
Proof.
  apply (merge_succeeds insertion_order
           [("arms", JList [arm_A]); ("primary_objectives", JList [JStr "A"])]
           [("arms", JList [arm_A]); ("primary_objectives", JList [JStr "B"])]).
  - repeat (apply NoDup_cons; [simpl; intuition discriminate|]).
    apply NoDup_nil.
  - intros key first rest Hin Hfirst. simpl in Hin.
    destruct Hin as [H|[H|[]]]; injection H as <- <- <-.
    + discriminate Hfirst.
    + split; [reflexivity|]. intros xs Hxs. injection Hxs as <-. reflexivity.
Defined.

Lemma merge_subrecords_twice_witness :
  dict_get [("arms", JList [arm_A])] "arms"
  = dict_get [("arms", JList [arm_A])] "arms".
Proof.
  apply (merge_subrecords_twice insertion_order
           [("arms", JList [])] [("arms", JList [arm_A])]
           [("arms", JList [arm_A])] [("arms", JList [arm_A])]
           "arms" []
           [("arm_name", JStr "Arm A");
            ("treatment_description", JStr "desc");
            ("dosing_schedule", JStr "daily")] []).
  - apply NoDup_cons; [simpl; tauto | apply NoDup_nil].
  - reflexivity.
  - simpl. now left.
  - apply Forall_nil.
  - apply Forall_cons; [exact wf_arm_A | apply Forall_nil].
  - reflexivity.
  - reflexivity.
Defined.

Lemma merge_list_replaces_non_list_witness :
  exists zs,
    dict_get [("protocol_title", JList [])] "protocol_title"
    = Some (JList zs) /\
    merge_entry insertion_order [("protocol_title", JList [])]
      ("protocol_title", JList [])
    = Ok [("protocol_title", JList zs)] /\
    (@nil json = [] -> zs = []).
Proof.
  apply (merge_list_replaces_non_list insertion_order
           [("protocol_title", JStr "Study X")]
           [("protocol_title", JList [])]
           [("protocol_title", JList [])]
           "protocol_title" (JStr "Study X") []).
  - apply NoDup_cons; [simpl; tauto | apply NoDup_nil].
  - reflexivity.
  - reflexivity.
  - simpl. now left.
  - reflexivity.
Defined.

Lemma generate_synopsis_record_complete_witness :
  exists record,
    Ok record = Ok (fold_left update_default example_reply default_structure) /\
    NoDup (keys record) /\
    (exists extra, keys record = keys schema ++ extra) /\
    (forall key, In key array_fields ->
                 exists items, dict_get record key = Some (JList items)).
Proof.
  apply (generate_synopsis_record_complete insertion_order
           (fun _ => Ok "ab. cd") (fun _ _ _ => Ok "reply")
           (fun _ => Some (JDict example_reply)) dict (fun d => Ok d)
           "protocol.pdf" [1%Z]
           (fold_left update_default example_reply default_structure)).
  reflexivity.
Defined.

Lemma generate_synopsis_short_document_witness :
  generate_synopsis insertion_order
    (fun _ => Ok "ab. cd") (fun _ _ _ => Ok "reply")
    (fun _ => Some (JDict example_reply)) dict (fun d => Ok d)
    "protocol.pdf"
  = ([1%Z],
     record <- _process_chunk (fun _ _ _ => Ok "reply")
                 (fun _ => Some (JDict example_reply))
                 (replace_newlines "ab. cd" ++ ".")%string 1 1 ;;
     Ok record).
Proof.
  apply (generate_synopsis_short_document insertion_order
           (fun _ => Ok "ab. cd") (fun _ _ _ => Ok "reply")
           (fun _ => Some (JDict example_reply)) dict (fun d => Ok d)
           "protocol.pdf" "ab. cd").
  - reflexivity.
  - discriminate.
Defined.
